(** * Vue 2.6.11 reactivity core: Dep / Watcher / Observer

    A shallow embedding of [src/core/observer/watcher.js] (class [Watcher])
    and of [src/core/observer/index.js] ([Observer], [observe],
    [defineReactive], [set], [del], [dependArray]) over an explicit store.

    JavaScript objects live in a heap indexed by references; [Dep]s,
    [Watcher]s and [Observer]s are records in stores indexed by their
    identity.  Code that can throw runs in a state-and-exception monad in
    which the state survives a throw, as it does in JavaScript.  The
    external collaborators ([warn], [handleError], [queueWatcher],
    [traverse], user getters, setters and callbacks) leave events in a
    trace, so that "was called", "exactly once" and "never" are statements
    about that trace. *)

From stdpp Require Import base gmap sets list strings option sorting.
From Stdlib Require Import ZArith Lia.

Open Scope string_scope.
Open Scope list_scope.

(** ** Values *)

(** Identities: dep and watcher ids, heap references, observer and
    component references. *)
Abbreviation DepId := nat (only parsing).
Abbreviation WatcherId := nat (only parsing).
Abbreviation ObjId := nat (only parsing).
Abbreviation ObId := nat (only parsing).
Abbreviation VmId := nat (only parsing).

(** JavaScript numbers, restricted to what the code distinguishes: the
    not-a-number sentinel and integer-valued numbers. *)
Inductive Num :=
| NaN
| Fin (z : Z).

Inductive Val :=
| VUndef
| VNull
| VBool (b : bool)
| VNum (n : Num)
| VStr (s : string)
| VRef (r : ObjId).

Global Instance Num_eq_dec : EqDecision Num.
Proof. solve_decision. Defined.
Global Instance Val_eq_dec : EqDecision Val.
Proof. solve_decision. Defined.

(** [a === b]: identity on references, value equality on primitives, and
    [NaN] different from everything including itself. *)
Definition strict_eq (a b : Val) : bool :=
  match a, b with
  | VNum NaN, _ | _, VNum NaN => false
  | _, _ => bool_decide (a = b)
  end.

(** [a !== a], true for [NaN] only. *)
Definition self_neq (a : Val) : bool := negb (strict_eq a a).

(** util [isObject]: [obj !== null && typeof obj === 'object']. *)
Definition isObject (v : Val) : bool :=
  match v with VRef _ => true | _ => false end.

(** JavaScript truthiness (ToBoolean). *)
Definition truthy (v : Val) : bool :=
  match v with
  | VUndef | VNull | VBool false | VNum NaN | VStr "" => false
  | VNum (Fin z) => negb (Z.eqb z 0)
  | _ => true
  end.

(** Thrown values. [RangeError] is what the engine throws when the call
    stack is exhausted. *)
Inductive Exn :=
| TypeError
| RangeError
| UserError (tag : nat).

Global Instance Exn_eq_dec : EqDecision Exn.
Proof. solve_decision. Defined.

(** ** Property keys *)

(** A key is either one that util [isValidArrayIndex] accepts (a
    non-negative integer, given as a number or its decimal string), or any
    other property name. *)
Inductive Key :=
| KIdx (n : nat)
| KName (s : string).

Global Instance Key_eq_dec : EqDecision Key.
Proof. solve_decision. Defined.

(** Modelled from the spec: util [isValidArrayIndex] ("a valid index"), true
    of the non-negative integer keys. *)
Definition isValidArrayIndex (k : Key) : bool :=
  match k with KIdx _ => true | KName _ => false end.

(** The names every object inherits from [Object.prototype]. *)
Definition Object_prototype_names : list string :=
  [ "constructor"; "hasOwnProperty"; "isPrototypeOf"; "propertyIsEnumerable";
    "toLocaleString"; "toString"; "valueOf"; "__proto__";
    "__defineGetter__"; "__defineSetter__"; "__lookupGetter__";
    "__lookupSetter__" ].

(** [key in Object.prototype] *)
Definition in_Object_prototype (k : Key) : bool :=
  match k with
  | KIdx _ => false
  | KName s => bool_decide (s ∈ Object_prototype_names)
  end.

(** Modelled from the spec: the mutating list operations that array.js
    wraps; an observed list finds them on [arrayMethods], in front of
    [Array.prototype]. *)
Definition arrayMethods_names : list string :=
  [ "push"; "pop"; "shift"; "unshift"; "splice"; "sort"; "reverse" ].

(** The largest length of a list, [2^32 - 1]. *)
Definition max_array_length : Z := 4294967295.

Definition valid_array_length (n : nat) : bool :=
  (Z.of_nat n <=? max_array_length)%Z.

(** ** The heap *)

(** The accessor functions a property descriptor can hold.  A user-defined
    getter returns a constant or the content of a private slot of the
    object, or throws; a user-defined setter stores into such a slot or
    drops the value.  [GReactive d] and [SReactive d] are the [reactiveGetter] and
    [reactiveSetter] closures that one call of [defineReactive] created;
    [d] is the id of the [dep] of that call, which identifies it. *)
Inductive Getter :=
| GConst (v : Val)
| GSlot (s : string)
| GThrow (e : Exn)
| GReactive (d : DepId).

Inductive Setter :=
| SSlot (s : string)
| SDrop
| SReactive (d : DepId).

(** The variables one call of [defineReactive] closes over: [obj], [key],
    the captured [val], [childOb], the pre-existing [getter] and [setter],
    and the [shallow] and [customSetter] arguments. *)
Record Closure := mkClosure {
  c_obj : ObjId;
  c_key : Key;
  c_val : Val;
  c_childOb : option ObId;
  c_getter : option Getter;
  c_setter : option Setter;
  c_shallow : bool;
  c_customSetter : bool
}.

Inductive PropKind :=
| PData (v : Val) (writable : bool)
| PAccessor (g : option Getter) (s : option Setter).

(** A property descriptor. *)
Record Prop_ := mkProp {
  p_kind : PropKind;
  p_enumerable : bool;
  p_configurable : bool
}.

Inductive Class_ :=
| CPlain      (* a plain object: [isPlainObject] *)
| CArray      (* [Array.isArray] *)
| COther.     (* any other object: Date, RegExp, class instance, ... *)

Global Instance Class_eq_dec : EqDecision Class_.
Proof. solve_decision. Defined.

(** A heap object.  Own properties are an association list in creation
    order, which is the order [Object.keys] reports for names that are not
    integers.  An array keeps its
    elements apart, [None] being a hole.  [o_ob] is the hidden [__ob__]
    marker: that name is kept out of [o_props] and user code does not
    address it.  [o_augmented] records that the mutating array methods have
    been replaced by their wrapped versions.  Prototypes other than
    [Object.prototype] and [Array.prototype] are not represented; the
    elements of an array are writable and configurable (no sealed or frozen
    array), and [splice] takes the array to be extensible. *)
Record Obj := mkObj {
  o_class : Class_;
  o_elems : list (option Val);
  o_props : list (Key * Prop_);
  o_slots : gmap string Val;
  o_ob : option ObId;
  o_augmented : bool;
  o_extensible : bool;
  o_isVue : bool;
  o_isVNode : bool
}.

Record Observer := mkObserver {
  ob_value : ObjId;
  ob_dep : DepId;
  ob_vmCount : nat
}.

(** ** Watcher evaluators *)

(** The evaluator of a watcher is user code that reads tracked state.  It is
    given as an expression: a constant, a property read [e[k]], a
    conditional, a sequence, or a throw. *)
Inductive Expr :=
| EVal (v : Val)
| EGet (e : Expr) (k : Key)
| EIf (c t f : Expr)
| ESeq (a b : Expr)
| EThrow (x : Exn).

(** ** Watchers, components and the global state *)

Record Watcher := mkWatcher {
  w_vm : VmId;
  w_cb : Val -> Val -> option Exn;   (* the callback: [Some e] when it throws [e] *)
  w_deep : bool;
  w_user : bool;
  w_lazy : bool;
  w_sync : bool;
  w_before : bool;
  w_dirty : bool;
  w_active : bool;
  w_deps : list DepId;
  w_newDeps : list DepId;
  w_depIds : gset DepId;
  w_newDepIds : gset DepId;
  w_getter : Expr;
  w_value : Val
}.

Record Vm := mkVm {
  vm_watchers : list WatcherId;       (* [vm._watchers] *)
  vm_watcher : option WatcherId;      (* [vm._watcher] *)
  vm_isBeingDestroyed : bool          (* [vm._isBeingDestroyed] *)
}.

Inductive Event :=
| EvWarn (msg : string)                              (* [warn(msg)] *)
| EvHandleError (e : Exn) (vm : VmId) (info : string) (* [handleError(e, vm, info)] *)
| EvQueue (w : WatcherId)                            (* [queueWatcher(w)] *)
| EvTraverse (v : Val)                               (* [traverse(v)] *)
| EvGetter (w : WatcherId)                           (* [w.getter.call(vm, vm)] *)
| EvCallback (w : WatcherId) (value oldValue : Val)  (* [w.cb.call(vm, value, oldValue)] *)
| EvDepend (d : DepId) (target : option WatcherId)   (* [d.depend()] with [Dep.target] *)
| EvNotify (d : DepId)                               (* [d.notify()] *)
| EvUpdate (w : WatcherId)                           (* [w.update()] *)
| EvUserGet (o : ObjId) (k : Key)                    (* a pre-existing getter *)
| EvUserSet (o : ObjId) (k : Key) (v : Val)          (* a pre-existing setter *)
| EvCustomSetter (o : ObjId) (k : Key).              (* [customSetter()] *)

Global Instance Event_eq_dec : EqDecision Event.
Proof. solve_decision. Defined.

Record State := mkState {
  st_subs : gmap DepId (list WatcherId);   (* [dep.subs] of every Dep *)
  st_depUid : nat;                         (* dep.js [uid] *)
  st_target : option WatcherId;            (* [Dep.target] *)
  st_targetStack : list (option WatcherId);
  st_watchers : gmap WatcherId Watcher;
  st_watcherUid : nat;                     (* watcher.js [uid] *)
  st_vms : gmap VmId Vm;
  st_objs : gmap ObjId Obj;
  st_observers : gmap ObId Observer;
  st_obUid : nat;
  st_closures : gmap DepId Closure;        (* the [defineReactive] closures *)
  st_shouldObserve : bool;                 (* [shouldObserve] *)
  st_ssr : bool;                           (* [isServerRendering()] *)
  st_production : bool;                    (* [process.env.NODE_ENV === 'production'] *)
  st_trace : list Event
}.

Definition set_subs (f : gmap DepId (list WatcherId) -> gmap DepId (list WatcherId))
    (st : State) : State :=
  mkState (f (st_subs st)) (st_depUid st) (st_target st) (st_targetStack st)
    (st_watchers st) (st_watcherUid st) (st_vms st) (st_objs st)
    (st_observers st) (st_obUid st) (st_closures st) (st_shouldObserve st) (st_ssr st)
    (st_production st) (st_trace st).

Definition set_depUid (n : nat) (st : State) : State :=
  mkState (st_subs st) n (st_target st) (st_targetStack st)
    (st_watchers st) (st_watcherUid st) (st_vms st) (st_objs st)
    (st_observers st) (st_obUid st) (st_closures st) (st_shouldObserve st) (st_ssr st)
    (st_production st) (st_trace st).

Definition set_target (t : option WatcherId) (stack : list (option WatcherId))
    (st : State) : State :=
  mkState (st_subs st) (st_depUid st) t stack
    (st_watchers st) (st_watcherUid st) (st_vms st) (st_objs st)
    (st_observers st) (st_obUid st) (st_closures st) (st_shouldObserve st) (st_ssr st)
    (st_production st) (st_trace st).

Definition set_watchers (f : gmap WatcherId Watcher -> gmap WatcherId Watcher)
    (st : State) : State :=
  mkState (st_subs st) (st_depUid st) (st_target st) (st_targetStack st)
    (f (st_watchers st)) (st_watcherUid st) (st_vms st) (st_objs st)
    (st_observers st) (st_obUid st) (st_closures st) (st_shouldObserve st) (st_ssr st)
    (st_production st) (st_trace st).

Definition set_watcherUid (n : nat) (st : State) : State :=
  mkState (st_subs st) (st_depUid st) (st_target st) (st_targetStack st)
    (st_watchers st) n (st_vms st) (st_objs st)
    (st_observers st) (st_obUid st) (st_closures st) (st_shouldObserve st) (st_ssr st)
    (st_production st) (st_trace st).

Definition set_vms (f : gmap VmId Vm -> gmap VmId Vm) (st : State) : State :=
  mkState (st_subs st) (st_depUid st) (st_target st) (st_targetStack st)
    (st_watchers st) (st_watcherUid st) (f (st_vms st)) (st_objs st)
    (st_observers st) (st_obUid st) (st_closures st) (st_shouldObserve st) (st_ssr st)
    (st_production st) (st_trace st).

Definition set_objs (f : gmap ObjId Obj -> gmap ObjId Obj) (st : State) : State :=
  mkState (st_subs st) (st_depUid st) (st_target st) (st_targetStack st)
    (st_watchers st) (st_watcherUid st) (st_vms st) (f (st_objs st))
    (st_observers st) (st_obUid st) (st_closures st) (st_shouldObserve st) (st_ssr st)
    (st_production st) (st_trace st).

Definition set_observers (f : gmap ObId Observer -> gmap ObId Observer) (n : nat)
    (st : State) : State :=
  mkState (st_subs st) (st_depUid st) (st_target st) (st_targetStack st)
    (st_watchers st) (st_watcherUid st) (st_vms st) (st_objs st)
    (f (st_observers st)) n (st_closures st) (st_shouldObserve st) (st_ssr st)
    (st_production st) (st_trace st).

Definition set_closures (f : gmap DepId Closure -> gmap DepId Closure)
    (st : State) : State :=
  mkState (st_subs st) (st_depUid st) (st_target st) (st_targetStack st)
    (st_watchers st) (st_watcherUid st) (st_vms st) (st_objs st)
    (st_observers st) (st_obUid st) (f (st_closures st)) (st_shouldObserve st)
    (st_ssr st) (st_production st) (st_trace st).

Definition set_shouldObserve (b : bool) (st : State) : State :=
  mkState (st_subs st) (st_depUid st) (st_target st) (st_targetStack st)
    (st_watchers st) (st_watcherUid st) (st_vms st) (st_objs st)
    (st_observers st) (st_obUid st) (st_closures st) b
    (st_ssr st) (st_production st) (st_trace st).

Definition set_trace (f : list Event -> list Event) (st : State) : State :=
  mkState (st_subs st) (st_depUid st) (st_target st) (st_targetStack st)
    (st_watchers st) (st_watcherUid st) (st_vms st) (st_objs st)
    (st_observers st) (st_obUid st) (st_closures st) (st_shouldObserve st) (st_ssr st)
    (st_production st) (f (st_trace st)).

(** ** The state-and-exception monad *)

Inductive Res (A : Type) :=
| Ok (a : A)
| Throw (e : Exn).
Arguments Ok {A} a.
Arguments Throw {A} e.

Definition M (A : Type) : Type := State -> Res A * State.

Definition ret {A} (a : A) : M A := fun st => (Ok a, st).
Definition throw {A} (e : Exn) : M A := fun st => (Throw e, st).

Definition bind {A B} (m : M A) (k : A -> M B) : M B :=
  fun st =>
    match m st with
    | (Ok a, st1) => k a st1
    | (Throw e, st1) => (Throw e, st1)
    end.

Declare Scope js_scope.
Delimit Scope js_scope with js.
Notation "x <- c1 ;; c2" := (bind c1 (fun x => c2))
  (at level 100, c1 at next level, right associativity) : js_scope.
Notation "c1 ;; c2" := (bind c1 (fun _ => c2))
  (at level 100, right associativity) : js_scope.
Open Scope js_scope.

Definition gets {A} (f : State -> A) : M A := fun st => (Ok (f st), st).
Definition modify (f : State -> State) : M unit := fun st => (Ok tt, f st).

(** [try { body } catch (e) { handler e }] *)
Definition try_catch {A} (body : M A) (handler : Exn -> M A) : M A :=
  fun st =>
    match body st with
    | (Ok a, st1) => (Ok a, st1)
    | (Throw e, st1) => handler e st1
    end.

(** [try { body } finally { fin }]: [fin] runs whatever [body] did, and
    sees how [body] completed; a throw of [fin] replaces the completion of
    [body]. *)
Definition try_finally {A} (body : M A) (fin : Res A -> M unit) : M A :=
  fun st =>
    match body st with
    | (r, st1) =>
        match fin r st1 with
        | (Ok _, st2) => (r, st2)
        | (Throw e, st2) => (Throw e, st2)
        end
    end.

(** [for] over a list, left to right, stopping at the first throw. *)
Fixpoint for_each {A} (f : A -> M unit) (l : list A) : M unit :=
  match l with
  | [] => ret tt
  | x :: l' => f x ;; for_each f l'
  end.

Definition when (b : bool) (m : M unit) : M unit := if b then m else ret tt.

Definition log (ev : Event) : M unit :=
  modify (set_trace (fun t => t ++ [ev])).

(** [process.env.NODE_ENV !== 'production' && warn(msg)] *)
Definition dev_warn (msg : string) : M unit :=
  prod <- gets st_production ;;
  when (negb prod) (log (EvWarn msg)).

(** Modelled from the spec: the error handler collaborator
    [handleError(error, owner, contextLabel)], which records the error and
    does not re-raise. *)
Definition handleError (e : Exn) (vm : VmId) (info : string) : M unit :=
  log (EvHandleError e vm info).

(** Modelled from the spec: the scheduler collaborator [queueWatcher], which
    defers the run; only the hand-off is recorded. *)
Definition queueWatcher (w : WatcherId) : M unit :=
  log (EvQueue w).

(** ** Association lists (own properties in creation order) *)

Fixpoint alist_lookup {V} (k : Key) (l : list (Key * V)) : option V :=
  match l with
  | [] => None
  | (k', v) :: l' => if decide (k' = k) then Some v else alist_lookup k l'
  end.

(** Replaces the binding of [k] in place, or appends a new one. *)
Fixpoint alist_set {V} (k : Key) (v : V) (l : list (Key * V)) : list (Key * V) :=
  match l with
  | [] => [(k, v)]
  | (k', v') :: l' =>
      if decide (k' = k) then (k, v) :: l' else (k', v') :: alist_set k v l'
  end.


(** ** Object primitives *)

Definition set_o_props (ps : list (Key * Prop_)) (o : Obj) : Obj :=
  mkObj (o_class o) (o_elems o) ps (o_slots o) (o_ob o)
    (o_augmented o) (o_extensible o) (o_isVue o) (o_isVNode o).

Definition set_o_elems (es : list (option Val)) (o : Obj) : Obj :=
  mkObj (o_class o) es (o_props o) (o_slots o) (o_ob o)
    (o_augmented o) (o_extensible o) (o_isVue o) (o_isVNode o).

Definition set_o_slots (sl : gmap string Val) (o : Obj) : Obj :=
  mkObj (o_class o) (o_elems o) (o_props o) sl (o_ob o)
    (o_augmented o) (o_extensible o) (o_isVue o) (o_isVNode o).

Definition set_o_ob (ob : option ObId) (o : Obj) : Obj :=
  mkObj (o_class o) (o_elems o) (o_props o) (o_slots o) ob
    (o_augmented o) (o_extensible o) (o_isVue o) (o_isVNode o).

Definition set_o_augmented (b : bool) (o : Obj) : Obj :=
  mkObj (o_class o) (o_elems o) (o_props o) (o_slots o) (o_ob o)
    b (o_extensible o) (o_isVue o) (o_isVNode o).

Definition data_prop (v : Val) : Prop_ := mkProp (PData v true) true true.

(** [Object.getOwnPropertyDescriptor(o, k)], for a key other than the
    marker name [__ob__], which is [o_ob] and has no descriptor here.  On an
    array the index keys are the elements and [length] is the
    non-configurable length. *)
Definition own_desc (o : Obj) (k : Key) : option Prop_ :=
  match o_class o, k with
  | CArray, KIdx n =>
      match o_elems o !! n with
      | Some (Some v) => Some (data_prop v)
      | _ => None
      end
  | CArray, KName "length" =>
      Some (mkProp (PData (VNum (Fin (Z.of_nat (length (o_elems o))))) true)
              false false)
  | _, _ => alist_lookup k (o_props o)
  end.

(** util [hasOwn], for a key other than [__ob__] *)
Definition hasOwn (o : Obj) (k : Key) : bool := bool_decide (is_Some (own_desc o k)).

(** [Object.keys(o)] of a non-array: the enumerable own keys. *)
Definition Object_keys (o : Obj) : list Key :=
  (filter (fun kp => p_enumerable (snd kp) = true) (o_props o)).*1.

Definition is_array (st : State) (v : Val) : bool :=
  match v with
  | VRef r =>
      match st_objs st !! r with
      | Some o => bool_decide (o_class o = CArray)
      | None => false
      end
  | _ => false
  end.

Definition the_obj (r : ObjId) : M Obj :=
  fun st =>
    match st_objs st !! r with
    | Some o => (Ok o, st)
    | None => (Throw TypeError, st)
    end.

Definition put_obj (r : ObjId) (o : Obj) : M unit :=
  modify (set_objs <[r := o]>).

Definition the_observer (ob : ObId) : M Observer :=
  fun st =>
    match st_observers st !! ob with
    | Some o => (Ok o, st)
    | None => (Throw TypeError, st)
    end.

Definition the_watcher (w : WatcherId) : M Watcher :=
  fun st =>
    match st_watchers st !! w with
    | Some wr => (Ok wr, st)
    | None => (Throw TypeError, st)
    end.

Definition put_watcher (w : WatcherId) (wr : Watcher) : M unit :=
  modify (set_watchers <[w := wr]>).

Definition the_vm (vm : VmId) : M Vm :=
  fun st =>
    match st_vms st !! vm with
    | Some v => (Ok v, st)
    | None => (Throw TypeError, st)
    end.

Definition the_closure (d : DepId) : M Closure :=
  fun st =>
    match st_closures st !! d with
    | Some c => (Ok c, st)
    | None => (Throw TypeError, st)
    end.

(** ** Dep *)

Definition subs_of (st : State) (d : DepId) : list WatcherId :=
  default [] (st_subs st !! d).

(** Modelled from the spec: [new Dep()] of dep.js, a subject with a globally
    unique monotonic id and an empty subscriber list. *)
Definition Dep_new : M DepId :=
  fun st =>
    let id := st_depUid st in
    (Ok id, set_depUid (S id) (set_subs <[id := []]> st)).

(** Modelled from the spec: [Dep.addSub], a no-op on a duplicate add. *)
Definition Dep_addSub (d : DepId) (w : WatcherId) : M unit :=
  fun st =>
    let subs := subs_of st d in
    if decide (w ∈ subs) then (Ok tt, st)
    else (Ok tt, set_subs <[d := subs ++ [w]]> st).

(** util [remove(arr, item)]: removes the first occurrence, if any. *)
Fixpoint remove (x : nat) (l : list nat) : list nat :=
  match l with
  | [] => []
  | y :: l' => if decide (y = x) then l' else y :: remove x l'
  end.

(** Modelled from the spec: [Dep.removeSub], a no-op on a missing target. *)
Definition Dep_removeSub (d : DepId) (w : WatcherId) : M unit :=
  fun st =>
    match st_subs st !! d with
    | Some subs => (Ok tt, set_subs <[d := remove w subs]> st)
    | None => (Ok tt, st)
    end.

Definition upd_deps (deps newDeps : list DepId) (depIds newDepIds : gset DepId)
    (w : Watcher) : Watcher :=
  mkWatcher (w_vm w) (w_cb w) (w_deep w) (w_user w) (w_lazy w) (w_sync w)
    (w_before w) (w_dirty w) (w_active w) deps newDeps depIds newDepIds
    (w_getter w) (w_value w).

Definition upd_value (v : Val) (w : Watcher) : Watcher :=
  mkWatcher (w_vm w) (w_cb w) (w_deep w) (w_user w) (w_lazy w) (w_sync w)
    (w_before w) (w_dirty w) (w_active w) (w_deps w) (w_newDeps w)
    (w_depIds w) (w_newDepIds w) (w_getter w) v.

Definition upd_dirty (b : bool) (w : Watcher) : Watcher :=
  mkWatcher (w_vm w) (w_cb w) (w_deep w) (w_user w) (w_lazy w) (w_sync w)
    (w_before w) b (w_active w) (w_deps w) (w_newDeps w)
    (w_depIds w) (w_newDepIds w) (w_getter w) (w_value w).

Definition upd_active (b : bool) (w : Watcher) : Watcher :=
  mkWatcher (w_vm w) (w_cb w) (w_deep w) (w_user w) (w_lazy w) (w_sync w)
    (w_before w) (w_dirty w) b (w_deps w) (w_newDeps w)
    (w_depIds w) (w_newDepIds w) (w_getter w) (w_value w).

(** [Watcher.addDep] *)
Definition addDep (w : WatcherId) (dep : DepId) : M unit :=
  wr <- the_watcher w ;;
  let id := dep in
  if decide (id ∈ w_newDepIds wr) then ret tt
  else
    put_watcher w (upd_deps (w_deps wr) (w_newDeps wr ++ [dep]) (w_depIds wr)
                     ({[id]} ∪ w_newDepIds wr) wr) ;;
    if decide (id ∈ w_depIds wr) then ret tt
    else Dep_addSub dep w.

(** Modelled from the spec: [Dep.depend], which asks the watcher in the
    active-tracker slot, if any, to record this Dep. *)
Definition Dep_depend (d : DepId) : M unit :=
  tgt <- gets st_target ;;
  log (EvDepend d tgt) ;;
  match tgt with
  | Some w => addDep w d
  | None => ret tt
  end.

(** Modelled from the spec: [pushTarget] and [popTarget] of dep.js, the
    strict push/pop stack behind the active-tracker slot.  The top of the
    stack is the head of the list. *)
Definition pushTarget (t : option WatcherId) : M unit :=
  modify (fun st => set_target t (t :: st_targetStack st) st).

Definition popTarget : M unit :=
  modify (fun st =>
    let stack := tail (st_targetStack st) in
    set_target (default None (head stack)) stack st).

(** ** Tracked reads *)

(** [e && e.__ob__ && e.__ob__.dep.depend()] *)
Definition depend_on_marker (e : Val) : M unit :=
  match e with
  | VRef r =>
      st <- gets id ;;
      match st_objs st !! r with
      | Some o =>
          match o_ob o with
          | Some ob => obr <- the_observer ob ;; Dep_depend (ob_dep obr)
          | None => ret tt
          end
      | None => ret tt
      end
  | _ => ret tt
  end.

(** [dependArray], [depth] bounding the nesting of the recursion. *)
Fixpoint dependArray (depth : nat) (value : ObjId) : M unit :=
  match depth with
  | 0 => throw RangeError
  | S depth' =>
      arr <- the_obj value ;;
      for_each (fun slot =>
          let e := default VUndef slot in
          depend_on_marker e ;;
          st <- gets id ;;
          match e with
          | VRef r => when (is_array st e) (dependArray depth' r)
          | _ => ret tt
          end)
        (o_elems arr)
  end.

(** The body of [reactiveGetter] for the closure of dep [d]; [inner] calls
    the pre-existing getter. *)
Definition reactiveGetter_with (inner : ObjId -> Key -> Getter -> M Val)
    (depth : nat) (d : DepId) : M Val :=
  c <- the_closure d ;;
  value <- match c_getter c with
           | Some g => inner (c_obj c) (c_key c) g
           | None => ret (c_val c)
           end ;;
  tgt <- gets st_target ;;
  match tgt with
  | Some _ =>
      Dep_depend d ;;
      match c_childOb c with
      | Some childOb =>
          obr <- the_observer childOb ;;
          Dep_depend (ob_dep obr) ;;
          st <- gets id ;;
          match value with
          | VRef a => when (is_array st value) (dependArray depth a)
          | _ => ret tt
          end
      | None => ret tt
      end
  | None => ret tt
  end ;;
  ret value.

(** [g.call(this)] for the getter [g] of property [k]; entering a
    [reactiveGetter] takes one level of [depth]. *)
Fixpoint call_getter (depth : nat) (this : ObjId) (k : Key) (g : Getter) : M Val :=
  match g with
  | GConst v => log (EvUserGet this k) ;; ret v
  | GSlot s =>
      log (EvUserGet this k) ;;
      obj <- the_obj this ;;
      ret (default VUndef (o_slots obj !! s))
  | GThrow e => log (EvUserGet this k) ;; throw e
  | GReactive d =>
      match depth with
      | 0 => throw RangeError
      | S depth' => reactiveGetter_with (call_getter depth') depth' d
      end
  end.


(** [obj[key]] *)
Definition read (depth : nat) (o : ObjId) (k : Key) : M Val :=
  obj <- the_obj o ;;
  match own_desc obj k with
  | Some p =>
      match p_kind p with
      | PData v _ => ret v
      | PAccessor (Some g) _ => call_getter depth o k g
      | PAccessor None _ => ret VUndef
      end
  | None => ret VUndef   (* the functions an object inherits are not values here *)
  end.

(** The evaluator, run as [getter.call(vm, vm)]. *)
Fixpoint eval_expr (depth : nat) (e : Expr) : M Val :=
  match e with
  | EVal v => ret v
  | EGet e' k =>
      v <- eval_expr depth e' ;;
      match v with
      | VRef o => read depth o k
      | VUndef | VNull => throw TypeError
      | _ => ret VUndef
      end
  | EIf c t f =>
      v <- eval_expr depth c ;;
      if truthy v then eval_expr depth t else eval_expr depth f
  | ESeq a b => eval_expr depth a ;; eval_expr depth b
  | EThrow x => throw x
  end.

(** ** Watcher *)

(** What a watcher is constructed from. *)
Inductive ExpOrFn :=
| OfFunction (f : Expr)
| OfPath (path : string).

Record Options := mkOptions {
  opt_deep : bool;
  opt_user : bool;
  opt_lazy : bool;
  opt_sync : bool;
  opt_before : bool
}.

Section Collaborators.

(** The traversal collaborator [traverse(value)] visits the reachable
    nested properties of [value] by reading them, for the sole purpose of
    forcing dependency registration.  What it does is a sequence of
    [depend()] calls, which may depend on the state, and it ends in a throw
    when a getter that it reads through throws. *)
Variable traverse_deps : State -> Val -> list DepId * option Exn.

(** The path resolver collaborator [parsePath]: the evaluator of a
    dot-delimited path, or nothing when the path is not a simple chain. *)
Variable parsePath : string -> option Expr.

(** The engine's [Array.prototype]: the names that a list inherits from
    it. *)
Variable Array_prototype_has : string -> bool.

(** The engine's conversion behind an assignment of a string or of an
    object to the [length] of a list: the length that [ToNumber] makes of
    the value, or nothing when that is not an integer from 0 to
    [2^32 - 1].  Converting an object runs its [valueOf] or [toString],
    which are taken to change nothing. *)
Variable to_array_length : State -> Val -> option nat.

(** Modelled from the spec: [traverse(value)] of traverse.js, through the
    collaborator above: the visit is recorded, the deps it touches are
    registered in order, and a getter that throws ends it. *)
Definition traverse (value : Val) : M unit :=
  log (EvTraverse value) ;;
  st <- gets id ;;
  for_each Dep_depend (traverse_deps st value).1 ;;
  match (traverse_deps st value).2 with
  | Some e => throw e
  | None => ret tt
  end.

(** [Watcher.cleanupDeps] *)
Definition cleanupDeps (w : WatcherId) : M unit :=
  wr <- the_watcher w ;;
  for_each (fun dep =>
      if bool_decide (dep ∈ w_newDepIds wr) then ret tt else Dep_removeSub dep w)
    (reverse (w_deps wr)) ;;
  wr <- the_watcher w ;;
  (* depIds <-> newDepIds, then newDepIds.clear();
     deps <-> newDeps, then newDeps.length = 0 *)
  put_watcher w (upd_deps (w_newDeps wr) [] (w_newDepIds wr) ∅ wr).

(** [Watcher.get].  The local [value] is what the [try] block assigned:
    the result of the getter, or [undefined] when the getter threw.  The
    label handed to [handleError] is given without the text of the
    expression. *)
Definition get (depth : nat) (w : WatcherId) : M Val :=
  wr <- the_watcher w ;;
  pushTarget (Some w) ;;
  let vm := w_vm wr in
  try_finally
    (try_catch
       (log (EvGetter w) ;; eval_expr depth (w_getter wr))
       (fun e =>
          if w_user wr
          then handleError e vm "getter for watcher" ;; ret VUndef
          else throw e))
    (fun completion =>
       let value := match completion with Ok v => v | Throw _ => VUndef end in
       when (w_deep wr) (traverse value) ;;
       popTarget ;;
       cleanupDeps w).

(** The callback, [cb.call(vm, value, oldValue)]. *)
Definition call_cb (w : WatcherId) (wr : Watcher) (value oldValue : Val) : M unit :=
  log (EvCallback w value oldValue) ;;
  match w_cb wr value oldValue with
  | Some e => throw e
  | None => ret tt
  end.

(** [Watcher.run] *)
Definition run (depth : nat) (w : WatcherId) : M unit :=
  wr <- the_watcher w ;;
  if w_active wr then
    value <- get depth w ;;
    wr <- the_watcher w ;;
    if negb (strict_eq value (w_value wr)) || isObject value || w_deep wr then
      let oldValue := w_value wr in
      put_watcher w (upd_value value wr) ;;
      if w_user wr then
        try_catch (call_cb w wr value oldValue)
          (fun e => handleError e (w_vm wr) "callback for watcher")
      else
        call_cb w wr value oldValue
    else ret tt
  else ret tt.

(** [Watcher.update] *)
Definition update (depth : nat) (w : WatcherId) : M unit :=
  log (EvUpdate w) ;;
  wr <- the_watcher w ;;
  if w_lazy wr then
    put_watcher w (upd_dirty true wr)
  else if w_sync wr then
    run depth w
  else
    queueWatcher w.

(** [Watcher.evaluate] *)
Definition evaluate (depth : nat) (w : WatcherId) : M unit :=
  value <- get depth w ;;
  wr <- the_watcher w ;;
  put_watcher w (upd_value value wr) ;;
  wr <- the_watcher w ;;
  put_watcher w (upd_dirty false wr).

(** [Watcher.depend] *)
Definition Watcher_depend (w : WatcherId) : M unit :=
  wr <- the_watcher w ;;
  for_each Dep_depend (reverse (w_deps wr)).

(** [Watcher.teardown] *)
Definition teardown (w : WatcherId) : M unit :=
  wr <- the_watcher w ;;
  if w_active wr then
    vm <- the_vm (w_vm wr) ;;
    when (negb (vm_isBeingDestroyed vm))
      (modify (set_vms <[w_vm wr :=
         mkVm (remove w (vm_watchers vm)) (vm_watcher vm)
              (vm_isBeingDestroyed vm)]>)) ;;
    for_each (fun dep => Dep_removeSub dep w) (reverse (w_deps wr)) ;;
    wr <- the_watcher w ;;
    put_watcher w (upd_active false wr)
  else ret tt.

(** The [Watcher] constructor.  The new watcher is referred to by its id,
    [++uid]. *)
Definition Watcher_new (depth : nat) (vm : VmId) (expOrFn : ExpOrFn)
    (cb : Val -> Val -> option Exn) (options : option Options)
    (isRenderWatcher : bool) : M WatcherId :=
  this <- gets (fun st => S (st_watcherUid st)) ;;
  v <- the_vm vm ;;
  let v1 := mkVm (vm_watchers v)
              (if isRenderWatcher then Some this else vm_watcher v)
              (vm_isBeingDestroyed v) in
  modify (set_vms <[vm :=
    mkVm (vm_watchers v1 ++ [this]) (vm_watcher v1) (vm_isBeingDestroyed v1)]>) ;;
  let '(deep, user, lazy, sync, before) :=
    match options with
    | Some o => (opt_deep o, opt_user o, opt_lazy o, opt_sync o, opt_before o)
    | None => (false, false, false, false, false)
    end in
  modify (set_watcherUid this) ;;
  getter <- match expOrFn with
            | OfFunction f => ret f
            | OfPath path =>
                match parsePath path with
                | Some f => ret f
                | None =>
                    dev_warn "Failed watching path" ;;
                    ret (EVal VUndef)       (* noop *)
                end
            end ;;
  put_watcher this
    (mkWatcher vm cb deep user lazy sync before
       lazy (* dirty *) true (* active *) [] [] ∅ ∅ getter VUndef) ;;
  value <- (if lazy then ret VUndef else get depth this) ;;
  wr <- the_watcher this ;;
  put_watcher this (upd_value value wr) ;;
  ret this.

(** Modelled from the spec: [Dep.notify], which fires [update()] on a
    snapshot of the subscribers, sorted by ascending id in non-production
    builds and in list order otherwise. *)
Definition Dep_notify (depth : nat) (d : DepId) : M unit :=
  log (EvNotify d) ;;
  prod <- gets st_production ;;
  snapshot <- gets (fun st => subs_of st d) ;;
  let subs := if prod then snapshot else merge_sort le snapshot in
  for_each (update depth) subs.

(** ** Observer *)

(** util [def(value, '__ob__', ob)] *)
Definition def_ob (value : ObjId) (ob : ObId) : M unit :=
  o <- the_obj value ;;
  put_obj value (set_o_ob (Some ob) o).

(** [Object.defineProperty(obj, key, { enumerable: true, configurable: true,
    get: reactiveGetter, set: reactiveSetter })].  Array slots hold data
    only: an accessor on an index of an array is not represented. *)
Definition define_accessor (obj : ObjId) (key : Key) (d : DepId) : M unit :=
  o <- the_obj obj ;;
  match o_class o, key with
  | CArray, KIdx _ => throw TypeError
  | _, _ =>
      match own_desc o key with
      | Some p =>
          if p_configurable p
          then put_obj obj
                 (set_o_props
                    (alist_set key
                       (mkProp (PAccessor (Some (GReactive d)) (Some (SReactive d)))
                          true true)
                       (o_props o)) o)
          else throw TypeError
      | None =>
          if o_extensible o
          then put_obj obj
                 (set_o_props
                    (alist_set key
                       (mkProp (PAccessor (Some (GReactive d)) (Some (SReactive d)))
                          true true)
                       (o_props o)) o)
          else throw TypeError
      end
  end.

Definition desc_get (p : option Prop_) : option Getter :=
  match p with
  | Some (mkProp (PAccessor g _) _ _) => g
  | _ => None
  end.

Definition desc_set (p : option Prop_) : option Setter :=
  match p with
  | Some (mkProp (PAccessor _ s) _ _) => s
  | _ => None
  end.

(** [defineReactive(obj, key, val, customSetter, shallow)], with [observe]
    as a parameter.  [val = None] stands for a call with exactly two
    arguments. *)
Definition defineReactive_with (observe_ : Val -> M (option ObId))
    (depth : nat) (obj : ObjId) (key : Key) (val : option Val)
    (customSetter shallow : bool) : M unit :=
  dep <- Dep_new ;;
  o <- the_obj obj ;;
  let property := own_desc o key in
  match property with
  | Some (mkProp _ _ false) => ret tt
  | _ =>
      (* cater for pre-defined getter/setters *)
      let getter := desc_get property in
      let setter := desc_set property in
      val <- (if (negb (bool_decide (is_Some getter)) || bool_decide (is_Some setter))
                 && bool_decide (val = None)
              then read depth obj key
              else ret (default VUndef val)) ;;
      childOb <- (if shallow then ret None else observe_ val) ;;
      modify (set_closures
        <[dep := mkClosure obj key val childOb getter setter shallow customSetter]>) ;;
      define_accessor obj key dep
  end.

(** [Observer.walk] *)
Definition walk_with (observe_ : Val -> M (option ObId)) (depth : nat)
    (obj : ObjId) : M unit :=
  o <- the_obj obj ;;
  for_each (fun key => defineReactive_with observe_ depth obj key None false false)
    (Object_keys o).

(** [Observer.observeArray] *)
Definition observeArray_with (observe_ : Val -> M (option ObId))
    (items : list (option Val)) : M unit :=
  for_each (fun slot => observe_ (default VUndef slot) ;; ret tt) items.

(** [protoAugment] / [copyAugment]: either way the array answers to the
    wrapped mutating methods afterwards. *)
Definition augment (target : ObjId) : M unit :=
  o <- the_obj target ;;
  put_obj target (set_o_augmented true o).

(** [new Observer(value)] *)
Definition Observer_new_with (observe_ : Val -> M (option ObId)) (depth : nat)
    (value : ObjId) : M ObId :=
  dep <- Dep_new ;;
  this <- gets st_obUid ;;
  modify (set_observers <[this := mkObserver value dep 0]> (S this)) ;;
  def_ob value this ;;
  o <- the_obj value ;;
  (if bool_decide (o_class o = CArray)
   then augment value ;; observeArray_with observe_ (o_elems o)
   else walk_with observe_ depth value) ;;
  ret this.

(** [observe(value, asRootData)]; creating an [Observer] takes one level of
    [depth]. *)
Fixpoint observe (depth : nat) (value : Val) (asRootData : bool)
    : M (option ObId) :=
  match value with
  | VRef r =>
      o <- the_obj r ;;
      if o_isVNode o then ret None
      else
        ob <- match o_ob o with
              | Some ob => ret (Some ob)
              | None =>
                  st <- gets id ;;
                  if st_shouldObserve st && negb (st_ssr st) &&
                     (bool_decide (o_class o = CArray) ||
                      bool_decide (o_class o = CPlain)) &&
                     o_extensible o && negb (o_isVue o)
                  then
                    match depth with
                    | 0 => throw RangeError
                    | S depth' =>
                        ob <- Observer_new_with
                                (fun v => observe depth' v false) depth' r ;;
                        ret (Some ob)
                    end
                  else ret None
              end ;;
        match ob with
        | Some i =>
            when asRootData
              (obr <- the_observer i ;;
               modify (fun st => set_observers
                 <[i := mkObserver (ob_value obr) (ob_dep obr) (S (ob_vmCount obr))]>
                 (st_obUid st) st))
        | None => ret tt
        end ;;
        ret ob
  | _ => ret None
  end.

Definition Observer_new (depth : nat) (value : ObjId) : M ObId :=
  Observer_new_with (fun v => observe depth v false) depth value.

Definition defineReactive (depth : nat) (obj : ObjId) (key : Key)
    (val : option Val) (customSetter shallow : bool) : M unit :=
  defineReactive_with (fun v => observe depth v false) depth obj key val
    customSetter shallow.

Definition observeArray (depth : nat) (items : list (option Val)) : M unit :=
  observeArray_with (fun v => observe depth v false) items.

Definition upd_c_val (v : Val) (c : Closure) : Closure :=
  mkClosure (c_obj c) (c_key c) v (c_childOb c) (c_getter c) (c_setter c)
    (c_shallow c) (c_customSetter c).

Definition upd_c_childOb (ob : option ObId) (c : Closure) : Closure :=
  mkClosure (c_obj c) (c_key c) (c_val c) ob (c_getter c) (c_setter c)
    (c_shallow c) (c_customSetter c).

(** The body of [reactiveSetter] for the closure of dep [d]; [inner] calls
    the pre-existing setter. *)
Definition reactiveSetter_with (inner : ObjId -> Key -> Setter -> Val -> M unit)
    (depth : nat) (d : DepId) (newVal : Val) : M unit :=
  c <- the_closure d ;;
  value <- match c_getter c with
           | Some g => call_getter depth (c_obj c) (c_key c) g
           | None => ret (c_val c)
           end ;;
  if strict_eq newVal value || (self_neq newVal && self_neq value) then ret tt
  else
    prod <- gets st_production ;;
    when (negb prod && c_customSetter c) (log (EvCustomSetter (c_obj c) (c_key c))) ;;
    (* #7981: for accessor properties without setter *)
    if bool_decide (is_Some (c_getter c)) && negb (bool_decide (is_Some (c_setter c)))
    then ret tt
    else
      match c_setter c with
      | Some s => inner (c_obj c) (c_key c) s newVal
      | None => modify (set_closures (<[d := upd_c_val newVal c]>))
      end ;;
      childOb <- (if c_shallow c then ret None else observe depth newVal false) ;;
      c' <- the_closure d ;;
      modify (set_closures (<[d := upd_c_childOb childOb c']>)) ;;
      Dep_notify depth d.

(** [s.call(this, newVal)] for the setter [s] of property [k]; entering a
    [reactiveSetter] takes one level of [depth]. *)
Fixpoint call_setter (depth : nat) (this : ObjId) (k : Key) (s : Setter)
    (newVal : Val) : M unit :=
  match s with
  | SDrop => log (EvUserSet this k newVal)
  | SSlot sl =>
      log (EvUserSet this k newVal) ;;
      obj <- the_obj this ;;
      put_obj this (set_o_slots (<[sl := newVal]> (o_slots obj)) obj)
  | SReactive d =>
      match depth with
      | 0 => throw RangeError
      | S depth' => reactiveSetter_with (call_setter depth') depth' d newVal
      end
  end.

(** [reactiveSetter], the write accessor that [defineReactive] installs. *)
Definition reactiveSetter (depth : nat) (d : DepId) (newVal : Val) : M unit :=
  reactiveSetter_with (call_setter depth) depth d newVal.

(** ** Plain assignment, deletion and the array mutators *)

Definition resize (n : nat) (es : list (option Val)) : list (option Val) :=
  take n es ++ replicate (n - length es) None.

(** [ToNumber(v)] as a length of a list, or nothing when the engine
    refuses it with a [RangeError]. *)
Definition new_length (st : State) (v : Val) : option nat :=
  match v with
  | VNum (Fin z) =>
      if (0 <=? z)%Z && (z <=? max_array_length)%Z then Some (Z.to_nat z) else None
  | VNum NaN | VUndef => None
  | VNull | VBool false => Some 0
  | VBool true => Some 1
  | VStr _ | VRef _ =>
      match to_array_length st v with
      | Some n => if valid_array_length n then Some n else None
      | None => None
      end
  end.

(** Storing [v] in the data property [k] of [o], creating it when absent.
    [None] when the engine refuses with a [RangeError] (an invalid array
    length).  [set] and [del] never store by index on a list; an integer
    key from [2^32 - 1] on, which names an ordinary property of a list, is
    not told apart here. *)
Definition store_data (st : State) (o : Obj) (k : Key) (v : Val) : option Obj :=
  match o_class o, k with
  | CArray, KIdx n =>
      Some (set_o_elems (<[n := Some v]> (resize (Nat.max (S n) (length (o_elems o)))
                                            (o_elems o))) o)
  | CArray, KName "length" =>
      match new_length st v with
      | Some n => Some (set_o_elems (resize n (o_elems o)) o)
      | None => None
      end
  | _, _ =>
      let p := match alist_lookup k (o_props o) with
               | Some p => mkProp (PData v true) (p_enumerable p) (p_configurable p)
               | None => data_prop v
               end in
      Some (set_o_props (alist_set k p (o_props o)) o)
  end.

(** The name behind which [Object.prototype] keeps the prototype accessor. *)
Definition is_proto_key (k : Key) : bool := bool_decide (k = KName "__proto__").

Definition put_stored (target : ObjId) (stored : option Obj) : M unit :=
  match stored with
  | Some o' => put_obj target o'
  | None => throw RangeError
  end.


(** [Array.prototype.splice(start, deleteCount, ...items)] on the elements. *)
Definition splice_elems (start deleteCount : nat) (items : list Val)
    (es : list (option Val)) : list (option Val) :=
  let start' := Nat.min start (length es) in
  let dc := Nat.min deleteCount (length es - start') in
  take start' es ++ (Some <$> items) ++ drop (start' + dc) es.

(** ** Reactive writes, [set] and [del] *)

(** [target[key] = val] in strict mode. *)
Definition assign (depth : nat) (target : ObjId) (key : Key) (val : Val) : M unit :=
  o <- the_obj target ;;
  match own_desc o key with
  | Some p =>
      match p_kind p with
      | PData _ true => st <- gets id ;; put_stored target (store_data st o key val)
      | PData _ false => throw TypeError
      | PAccessor _ (Some s) => call_setter depth target key s val
      | PAccessor _ None => throw TypeError
      end
  | None =>
      if is_proto_key key then ret tt       (* prototypes are not represented *)
      else if o_extensible o then
        st <- gets id ;; put_stored target (store_data st o key val)
      else throw TypeError
  end.

(** Modelled from the spec: [target.splice(start, deleteCount, ...items)].
    On an augmented array this is the wrapped mutator of array.js: after
    performing the mutation it observes the newly inserted elements and
    calls [notify()] on the container's own Dep.  Otherwise it is the
    native method.  The native method is the one of an extensible list;
    it refuses a result longer than [2^32 - 1] with a [RangeError], and
    what it moved before refusing is not represented. *)
Definition array_splice (depth : nat) (target : ObjId) (start deleteCount : nat)
    (items : list Val) : M unit :=
  o <- the_obj target ;;
  let es := splice_elems start deleteCount items (o_elems o) in
  (if valid_array_length (length es)
   then put_obj target (set_o_elems es o)
   else throw RangeError) ;;
  if o_augmented o then
    match o_ob o with
    | Some ob =>
        obr <- the_observer ob ;;
        observeArray depth (Some <$> items) ;;
        Dep_notify depth (ob_dep obr)
    | None => throw TypeError
    end
  else ret tt.

(** util [isUndef(v) || isPrimitive(v)] *)
Definition isUndef_or_isPrimitive (v : Val) : bool :=
  match v with VRef _ => false | _ => true end.

(** [ob && ob.vmCount] *)
Definition ob_vmCount_of (ob : option ObId) : M nat :=
  match ob with
  | Some i => obr <- the_observer i ;; ret (ob_vmCount obr)
  | None => ret 0
  end.

(** [key in target], for a plain object or a list whose prototype chain
    is the one it was created with: own properties, then for a list the
    wrapped operations once it is observed and [Array.prototype], then
    [Object.prototype]. *)
Definition has_in (o : Obj) (k : Key) : bool :=
  hasOwn o k || in_Object_prototype k ||
  (bool_decide (o_class o = CArray) &&
   match k with
   | KIdx _ => false
   | KName s =>
       Array_prototype_has s || (o_augmented o && bool_decide (s ∈ arrayMethods_names))
   end).

(** [set(target, key, val)] *)
Definition set (depth : nat) (target : Val) (key : Key) (val : Val) : M Val :=
  when (isUndef_or_isPrimitive target)
    (dev_warn "Cannot set reactive property on undefined, null, or primitive value") ;;
  match target with
  | VRef r =>
      o <- the_obj r ;;
      match o_class o, key with
      | CArray, KIdx n =>
          (* target.length = Math.max(target.length, key) *)
          let len := Nat.max (length (o_elems o)) n in
          (if valid_array_length len
           then put_obj r (set_o_elems (resize len (o_elems o)) o)
           else throw RangeError) ;;
          array_splice depth r n 1 [val] ;;
          ret val
      | _, _ =>
          if has_in o key && negb (in_Object_prototype key) then
            assign depth r key val ;;
            ret val
          else
            let ob := o_ob o in
            vmCount <- (if o_isVue o then ret 0 else ob_vmCount_of ob) ;;
            if o_isVue o || negb (Nat.eqb vmCount 0) then
              dev_warn "Avoid adding reactive properties to a Vue instance or its root $data at runtime - declare it upfront in the data option." ;;
              ret val
            else
              match ob with
              | None =>
                  assign depth r key val ;;
                  ret val
              | Some i =>
                  obr <- the_observer i ;;
                  defineReactive depth (ob_value obr) key (Some val) false false ;;
                  Dep_notify depth (ob_dep obr) ;;
                  ret val
              end
      end
  | _ => throw TypeError      (* [key in target] on a primitive *)
  end.


End Collaborators.

(** * Vocabulary of the statements *)

(** ** Events of the trace *)

Definition is_depend (ev : Event) : bool :=
  match ev with EvDepend _ _ => true | _ => false end.


Definition is_update (ev : Event) : bool :=
  match ev with EvUpdate _ => true | _ => false end.

Definition is_callback (ev : Event) : bool :=
  match ev with EvCallback _ _ _ => true | _ => false end.

Definition is_getter (ev : Event) : bool :=
  match ev with EvGetter _ => true | _ => false end.

(** The events of an evaluation other than [depend()] calls. *)
Definition L_eval (ev : Event) : Prop :=
  match ev with
  | EvUserGet _ _ | EvGetter _ | EvHandleError _ _ _ | EvTraverse _ => True
  | _ => False
  end.

(** The events of a read. *)
Definition L_read (ev : Event) : Prop :=
  match ev with EvUserGet _ _ => True | _ => False end.

(** The events of [get]. *)
Definition E_get (ev : Event) : Prop := L_eval ev \/ is_depend ev = true.

(** The events of [run]. *)
Definition E_run (ev : Event) : Prop := E_get ev \/ is_callback ev = true.

(** The events of [update] on one of the watchers [l]. *)
Definition E_update (l : list WatcherId) (ev : Event) : Prop :=
  E_run ev \/ (exists w, w ∈ l /\ (ev = EvUpdate w \/ ev = EvQueue w)).





(** ** Relations between the state before and the state after *)

Definition respects (R : relation State) {A} (m : M A) : Prop := forall st, R st (m st).2.

(** The states reached from [st0] by [depend()] calls and by events of
    kind [L] (none of them a [depend()]): what an evaluation does between
    the push and the pop of the active-tracker slot. *)
Inductive tracked (L : Event -> Prop) (st0 : State) : State -> Prop :=
| tracked_refl : tracked L st0 st0
| tracked_log st ev :
    tracked L st0 st -> L ev -> is_depend ev = false ->
    tracked L st0 (log ev st).2
| tracked_depend st d :
    tracked L st0 st -> tracked L st0 (Dep_depend d st).2.

(** Everything but subscriber lists, watchers and the trace. *)
Definition same_world (st0 st : State) : Prop :=
  st_depUid st = st_depUid st0 /\
  st_target st = st_target st0 /\
  st_targetStack st = st_targetStack st0 /\
  st_watcherUid st = st_watcherUid st0 /\
  st_vms st = st_vms st0 /\
  st_objs st = st_objs st0 /\
  st_observers st = st_observers st0 /\
  st_obUid st = st_obUid st0 /\
  st_closures st = st_closures st0 /\
  st_shouldObserve st = st_shouldObserve st0 /\
  st_ssr st = st_ssr st0 /\
  st_production st = st_production st0.

(** Heap, stores of observers, closures and components, counters and
    switches. *)
Definition same_heap (st0 st : State) : Prop :=
  st_depUid st = st_depUid st0 /\
  st_watcherUid st = st_watcherUid st0 /\
  st_vms st = st_vms st0 /\
  st_objs st = st_objs st0 /\
  st_observers st = st_observers st0 /\
  st_obUid st = st_obUid st0 /\
  st_closures st = st_closures st0 /\
  st_shouldObserve st = st_shouldObserve st0 /\
  st_ssr st = st_ssr st0 /\
  st_production st = st_production st0.

(** Events only accumulate. *)
Definition trace_extends (P : Event -> Prop) (st0 st : State) : Prop :=
  exists new, st_trace st = st_trace st0 ++ new /\ Forall P new.

(** Collecting and reconciling dependencies changes nothing of a watcher but
    its four dependency buffers. *)
Definition buffers_only (st st' : State) : Prop :=
  forall w wr, st_watchers st !! w = Some wr ->
    exists a b c d, st_watchers st' !! w = Some (upd_deps a b c d wr).

(** An inactive watcher stays in the store, inactive. *)
Definition keeps_inactive (st st' : State) : Prop :=
  forall w wr, st_watchers st !! w = Some wr ->
    exists wr', st_watchers st' !! w = Some wr' /\
      (w_active wr = false -> w_active wr' = false).

(** Objects stay, with their [__ob__] marker once it is set and with their
    kind; observers stay in the store. *)
Definition keeps_markers (st st' : State) : Prop :=
  (forall r o, st_objs st !! r = Some o ->
     exists o', st_objs st' !! r = Some o' /\
       o_isVNode o' = o_isVNode o /\
       (forall ob, o_ob o = Some ob -> o_ob o' = Some ob)) /\
  (forall ob, is_Some (st_observers st !! ob) -> is_Some (st_observers st' !! ob)).

Definition objs_fixed (st st' : State) : Prop :=
  st_objs st' = st_objs st /\ st_closures st' = st_closures st /\
  st_observers st' = st_observers st.

(** ** Invariants of the stores *)

(** Dep invariant: a subscriber appears at most once. *)
Definition DepInv (st : State) : Prop := forall d, NoDup (subs_of st d).

(** The subscription invariant of a watcher between two evaluations: its
    "new" buffers are empty, its current set holds the ids of its current
    list, and it is subscribed to exactly the deps of that list. *)
Definition WatcherInv (st : State) (w : WatcherId) : Prop :=
  exists wr, st_watchers st !! w = Some wr /\
    w_newDeps wr = [] /\ w_newDepIds wr = ∅ /\
    w_depIds wr = list_to_set (w_deps wr) /\
    (forall d, w ∈ subs_of st d <-> d ∈ w_deps wr).

(** The state [st] of an evaluation of watcher [w] that started in [st0]
    with the record [wr0] and empty "new" buffers: [N], the new list, holds
    exactly the deps whose [depend()] was invoked so far, each once, and [w]
    was appended to the subscribers of those that were not in the current
    set. *)
Definition collected (w : WatcherId) (wr0 : Watcher) (st0 st : State) : Prop :=
  exists N new,
    st_watchers st =
      (<[w := upd_deps (w_deps wr0) N (w_depIds wr0) (list_to_set N) wr0]>
         (st_watchers st0)) /\
    st_trace st = st_trace st0 ++ new /\
    NoDup N /\
    (forall d, d ∈ N <-> EvDepend d (Some w) ∈ new) /\
    (forall d, subs_of st d = subs_of st0 d ++
       (if decide (d ∈ N /\ (d ∉ w_depIds wr0) /\ (w ∉ subs_of st0 d))
        then [w] else [])).

(** Every marker is an [Observer] of the store. *)
Definition markers_wf (st : State) : Prop :=
  forall r o ob, st_objs st !! r = Some o -> o_ob o = Some ob ->
    is_Some (st_observers st !! ob).


(** ** Parts and conditions of the operations *)

(** The deep traversal that opens the [finally] of [get]; [completion] is
    how the [try]/[catch] ended. *)
Definition get_traverse (traverse_deps : State -> Val -> list DepId * option Exn)
    (wr : Watcher) (completion : Res Val) : M unit :=
  when (w_deep wr)
    (traverse traverse_deps (match completion with Ok v => v | Throw _ => VUndef end)).

(** The [try]/[catch] of [get]. *)
Definition get_body (depth : nat) (w : WatcherId) (wr : Watcher) : M Val :=
  try_catch
    (log (EvGetter w) ;; eval_expr depth (w_getter wr))
    (fun e =>
       if w_user wr
       then handleError e (w_vm wr) "getter for watcher" ;; ret VUndef
       else throw e).

(** The record that the constructor registers before the first evaluation. *)
Definition new_watcher (parsePath : string -> option Expr) (vm : VmId)
    (expOrFn : ExpOrFn) (cb : Val -> Val -> option Exn) (options : option Options)
    : Watcher :=
  let o := default (mkOptions false false false false false) options in
  mkWatcher vm cb (opt_deep o) (opt_user o) (opt_lazy o) (opt_sync o) (opt_before o)
    (opt_lazy o) true [] [] ∅ ∅
    (match expOrFn with
     | OfFunction f => f
     | OfPath path => default (EVal VUndef) (parsePath path)
     end)
    VUndef.


(** A watcher that [update()] hands to the scheduler: neither [lazy] nor
    [sync]. *)
Definition deferred (st : State) (w : WatcherId) : Prop :=
  exists wr, st_watchers st !! w = Some wr /\ w_lazy wr = false /\ w_sync wr = false.

(** What [observe] leaves alone: a primitive, a VNode, and an object
    without marker that is not extensible, a component instance or of a
    class other than plain object and list, or that is met while
    observation is switched off or on the server. *)
Definition not_observable (st : State) (value : Val) : Prop :=
  match value with
  | VRef r =>
      exists o, st_objs st !! r = Some o /\
        (o_isVNode o = true \/
         o_ob o = None /\
         (st_shouldObserve st = false \/ st_ssr st = true \/ o_class o = COther \/
          o_extensible o = false \/ o_isVue o = true))
  | _ => True
  end.

(** The evaluator that the constructor resolves. *)
Definition resolved_getter (parsePath : string -> option Expr) (expOrFn : ExpOrFn) : Expr :=
  match expOrFn with
  | OfFunction f => f
  | OfPath path => default (EVal VUndef) (parsePath path)
  end.

(** [getter ? getter.call(obj) : val], the current value as the accessors
    of the closure [c] compute it. *)
Definition current_value (depth : nat) (c : Closure) : M Val :=
  match c_getter c with
  | Some g => call_getter depth (c_obj c) (c_key c) g
  | None => ret (c_val c)
  end.

(** The root-binding count of [observe]. *)
Definition count_root (asRootData : bool) (i : ObId) : M unit :=
  when asRootData
    (obr <- the_observer i ;;
     modify (fun st => set_observers
       <[i := mkObserver (ob_value obr) (ob_dep obr) (S (ob_vmCount obr))]>
       (st_obUid st) st)).

(** The operations of a watcher and of a dep, as a caller can invoke
    them. *)
Inductive Op :=
| OpGet (w : WatcherId)
| OpAddDep (w : WatcherId) (d : DepId)
| OpCleanupDeps (w : WatcherId)
| OpUpdate (w : WatcherId)
| OpRun (w : WatcherId)
| OpEvaluate (w : WatcherId)
| OpDepend (w : WatcherId)
| OpTeardown (w : WatcherId)
| OpNotify (d : DepId).

Definition do_op (traverse_deps : State -> Val -> list DepId * option Exn)
    (depth : nat) (op : Op) : M unit :=
  match op with
  | OpGet w => get traverse_deps depth w ;; ret tt
  | OpAddDep w d => addDep w d
  | OpCleanupDeps w => cleanupDeps w
  | OpUpdate w => update traverse_deps depth w
  | OpRun w => run traverse_deps depth w
  | OpEvaluate w => evaluate traverse_deps depth w
  | OpDepend w => Watcher_depend w
  | OpTeardown w => teardown w
  | OpNotify d => Dep_notify traverse_deps depth d
  end.

Definition reactive_prop (d : DepId) : Prop_ :=
  mkProp (PAccessor (Some (GReactive d)) (Some (SReactive d))) true true.

Definition not_array_index (o : Obj) (key : Key) : Prop :=
  match o_class o, key with CArray, KIdx _ => False | _, _ => True end.






(** ** Example states *)

(** The container [{a: 1, flag: true, b: 7}], observed, and a watcher whose
    evaluator reads [b] only while [flag] is true. *)
Module Scenario.

Definition no_traverse : State -> Val -> list DepId * option Exn :=
  fun _ _ => ([], None).

Definition no_paths : string -> option Expr := fun _ => None.


(** No example assigns a string or an object to the length of a list: the
    conversion is not consulted. *)
Definition lengths : State -> Val -> option nat := fun _ _ => None.

Definition container : Obj :=
  mkObj CPlain []
    [ (KName "a", data_prop (VNum (Fin 1)));
      (KName "flag", data_prop (VBool true));
      (KName "b", data_prop (VNum (Fin 7))) ]
    ∅ None false true false false.

Definition initial : State :=
  mkState ∅ 0 None [] ∅ 0 {[ 0 := mkVm [] None false ]} {[ 0 := container ]}
    ∅ 0 ∅ true false false [].

Definition evaluator : Expr :=
  EIf (EGet (EVal (VRef 0)) (KName "flag"))
      (EGet (EVal (VRef 0)) (KName "b"))
      (EVal VNull).

Definition quiet_cb : Val -> Val -> option Exn := fun _ _ => None.

(** After [observe(container)] and [new Watcher(vm, evaluator, cb)]: the
    watcher has id 1 and depends on the deps 2 ([flag]) and 3 ([b]). *)
Definition watched : State :=
  Eval vm_compute in
    ((observe 5 (VRef 0) false ;;
      Watcher_new no_traverse no_paths 5 0 (OfFunction evaluator) quiet_cb None false)
       initial).2.

Definition no_watcher : Watcher :=
  mkWatcher 0 quiet_cb false false false false false false false [] [] ∅ ∅
    (EVal VUndef) VUndef.

(** The record of the watcher at that point. *)
Definition watched_watcher : Watcher :=
  Eval vm_compute in default no_watcher (st_watchers watched !! 1).

Definition watched_object : Obj :=
  Eval vm_compute in default container (st_objs watched !! 0).

(** After [container.flag = false], before the scheduler has run. *)
Definition flag_flipped : State :=
  Eval vm_compute in (assign no_traverse lengths 5 0 (KName "flag") (VBool false) watched).2.


End Scenario.

(** A [user] watcher whose evaluator reads [a] and then throws, created
    [lazy] so that construction does not run it. *)
Module Failing.

Definition evaluator : Expr :=
  ESeq (EGet (EVal (VRef 0)) (KName "a")) (EThrow (UserError 7)).

Definition watched : State :=
  Eval vm_compute in
    ((observe 5 (VRef 0) false ;;
      Watcher_new Scenario.no_traverse Scenario.no_paths 5 0 (OfFunction evaluator)
        Scenario.quiet_cb (Some (mkOptions false true true false false)) false)
       Scenario.initial).2.

Definition watcher : Watcher :=
  Eval vm_compute in default Scenario.no_watcher (st_watchers watched !! 1).

End Failing.

(** An object with a read-only accessor [ro] over the private slot [x] and
    a data property [n] holding [NaN], observed. *)
Module Accessors.

Definition object : Obj :=
  mkObj CPlain []
    [ (KName "ro", mkProp (PAccessor (Some (GSlot "x")) None) true true);
      (KName "n", data_prop (VNum NaN)) ]
    {[ "x" := VNum (Fin 5) ]} None false true false false.

Definition initial : State :=
  mkState ∅ 0 None [] ∅ 0 ∅ {[ 0 := object ]} ∅ 0 ∅ true false false [].

Definition observed : State :=
  Eval vm_compute in (observe 5 (VRef 0) false initial).2.

Definition no_closure : Closure :=
  mkClosure 0 (KName "") VUndef None None None false false.

(** The closures of [ro] (dep 1) and of [n] (dep 2). *)
Definition ro_closure : Closure :=
  Eval vm_compute in default no_closure (st_closures observed !! 1).

Definition n_closure : Closure :=
  Eval vm_compute in default no_closure (st_closures observed !! 2).

End Accessors.

(** The container of the running example, observed as root data, in a
    production build. *)
Module Root.

Definition observed : State :=
  Eval vm_compute in (observe 5 (VRef 0) true Scenario.initial).2.


Definition object : Obj :=
  Eval vm_compute in default Scenario.container (st_objs observed !! 0).

End Root.

(** An observed object that has an own property named like a member of
    [Object.prototype]. *)
Module Shadowing.

Definition object : Obj :=
  mkObj CPlain [] [ (KName "valueOf", data_prop (VNum (Fin 1))) ]
    ∅ None false true false false.

Definition initial : State :=
  mkState ∅ 0 None [] ∅ 0 ∅ {[ 0 := object ]} ∅ 0 ∅ true false false [].

Definition observed : State :=
  Eval vm_compute in (observe 5 (VRef 0) false initial).2.

End Shadowing.

(** A plain list [[10, 20, 30]], not observed. *)
Module PlainList.

Definition list_ : Obj :=
  mkObj CArray [Some (VNum (Fin 10)); Some (VNum (Fin 20)); Some (VNum (Fin 30))] []
    ∅ None false true false false.

Definition initial : State :=
  mkState ∅ 0 None [] ∅ 0 ∅ {[ 0 := list_ ]} ∅ 0 ∅ true false false [].

Definition observed : State :=
  Eval vm_compute in (observe 5 (VRef 0) false initial).2.


End PlainList.

(** The watcher of the running example, torn down. *)
Module TornDown.

Definition state : State :=
  Eval vm_compute in (teardown 1 Scenario.watched).2.

End TornDown.

(** The object [{bad: <a getter that throws>, a: 1}], observed, and a
    [deep] watcher in [user] mode, created [lazy], whose evaluator returns
    the object.  The traversal of the object visits its keys last to first:
    it reads [a], whose dep is 2, and then [bad], whose getter throws. *)
Module Deep.

Definition object : Obj :=
  mkObj CPlain []
    [ (KName "bad", mkProp (PAccessor (Some (GThrow (UserError 9))) None) true true);
      (KName "a", data_prop (VNum (Fin 1))) ]
    ∅ None false true false false.

Definition initial : State :=
  mkState ∅ 0 None [] ∅ 0 {[ 0 := mkVm [] None false ]} {[ 0 := object ]}
    ∅ 0 ∅ true false false [].

Definition evaluator : Expr := EVal (VRef 0).

Definition failing_traverse : State -> Val -> list DepId * option Exn :=
  fun _ value =>
    match value with
    | VRef _ => ([2], Some (UserError 9))
    | _ => ([], None)
    end.

Definition watched : State :=
  Eval vm_compute in
    ((observe 5 (VRef 0) false ;;
      Watcher_new failing_traverse Scenario.no_paths 5 0 (OfFunction evaluator)
        Scenario.quiet_cb (Some (mkOptions true true true false false)) false)
       initial).2.

Definition watched_object : Obj :=
  Eval vm_compute in default object (st_objs watched !! 0).

Definition watcher : Watcher :=
  Eval vm_compute in default Scenario.no_watcher (st_watchers watched !! 1).

End Deep.

(** The running example with a second watcher, [lazy] as the watcher of a
    computed property, that reads [a]: it has been evaluated once, and the
    first watcher is the active target. *)
Module Computed.

Definition observed : State :=
  Eval vm_compute in (observe 5 (VRef 0) false Scenario.initial).2.

Definition evaluator : Expr := EGet (EVal (VRef 0)) (KName "a").

Definition state : State :=
  Eval vm_compute in
    ((w <- Watcher_new Scenario.no_traverse Scenario.no_paths 5 0
            (OfFunction evaluator) Scenario.quiet_cb
            (Some (mkOptions false false true false false)) false ;;
      evaluate Scenario.no_traverse 5 w ;;
      pushTarget (Some 1)) Scenario.watched).2.

Definition target_watcher : Watcher :=
  Eval vm_compute in default Scenario.no_watcher (st_watchers state !! 1).

Definition computed_watcher : Watcher :=
  Eval vm_compute in default Scenario.no_watcher (st_watchers state !! 2).

End Computed.

(** ** Clauses of the claims as the specification states them *)



(** C1 as the specification states it, of every watcher: after an
    evaluation that completed, the watcher is subscribed to the deps of its
    current list. *)
Definition get_subscribes_claim : Prop :=
  forall traverse_deps depth w st v st' wr',
    get traverse_deps depth w st = (Ok v, st') ->
    st_watchers st' !! w = Some wr' ->
    forall d, d ∈ w_deps wr' -> w ∈ subs_of st' d.






(** * Reasoning principles *)

(** ** Relations that every step of a computation respects *)

Section Respects.

Context (R : relation State) `{!PreOrder R}.

Lemma respects_ret {A} (a : A) : respects R (ret a).
Proof. intros st. reflexivity. Qed.

Lemma respects_throw {A} (e : Exn) : respects R (@throw A e).
Proof. intros st. reflexivity. Qed.

Lemma respects_gets {A} (f : State -> A) : respects R (gets f).
Proof. intros st. reflexivity. Qed.

Lemma respects_bind {A B} (m : M A) (k : A -> M B) :
  respects R m -> (forall a, respects R (k a)) -> respects R (bind m k).
Proof.
  intros Hm Hk st. unfold bind. specialize (Hm st).
  destruct (m st) as [[a|e] st1]; simpl in *; [|done].
  etrans; [exact Hm|apply Hk].
Qed.

Lemma respects_when (b : bool) (m : M unit) : respects R m -> respects R (when b m).
Proof. destruct b; simpl; [done|intros _; apply (respects_ret _)]. Qed.

Lemma respects_for_each {A} (f : A -> M unit) (l : list A) :
  (forall x, respects R (f x)) -> respects R (for_each f l).
Proof.
  intros Hf. induction l as [|x l IH]; simpl.
  - apply (respects_ret _).
  - apply (respects_bind _); [apply Hf|intros _; exact IH].
Qed.

Lemma respects_try_catch {A} (body : M A) (handler : Exn -> M A) :
  respects R body -> (forall e, respects R (handler e)) ->
  respects R (try_catch body handler).
Proof.
  intros Hb Hh st. unfold try_catch. specialize (Hb st).
  destruct (body st) as [[a|e] st1]; simpl in *; [done|].
  etrans; [exact Hb|apply Hh].
Qed.

Lemma respects_try_finally {A} (body : M A) (fin : Res A -> M unit) :
  respects R body -> (forall r, respects R (fin r)) ->
  respects R (try_finally body fin).
Proof.
  intros Hb Hf st. unfold try_finally. specialize (Hb st).
  destruct (body st) as [r st1]; simpl in *.
  specialize (Hf r st1).
  destruct (fin r st1) as [[[]|e] st2]; simpl in *; etrans; eauto.
Qed.

Lemma respects_the_obj r : respects R (the_obj r).
Proof. intros st. unfold the_obj. destruct (st_objs st !! r); reflexivity. Qed.

Lemma respects_the_observer r : respects R (the_observer r).
Proof. intros st. unfold the_observer. destruct (st_observers st !! r); reflexivity. Qed.

Lemma respects_the_watcher r : respects R (the_watcher r).
Proof. intros st. unfold the_watcher. destruct (st_watchers st !! r); reflexivity. Qed.

Lemma respects_the_vm r : respects R (the_vm r).
Proof. intros st. unfold the_vm. destruct (st_vms st !! r); reflexivity. Qed.

Lemma respects_the_closure r : respects R (the_closure r).
Proof. intros st. unfold the_closure. destruct (st_closures st !! r); reflexivity. Qed.

Lemma respects_state {A} (k : State -> M A) :
  (forall s, respects R (k s)) -> respects R (fun st => k st st).
Proof. intros H st. apply H. Qed.

End Respects.

(** Breaks a goal [respects R m] down along the structure of [m], leaving
    the atomic state changes. *)
Ltac respects_step :=
  lazymatch goal with
  | |- respects _ (bind _ _) => apply (respects_bind _); [|intros ?]
  | |- respects _ (ret _) => apply (respects_ret _)
  | |- respects _ (throw _) => apply (respects_throw _)
  | |- respects _ (gets _) => apply (respects_gets _)
  | |- respects _ (when _ _) => apply (respects_when _)
  | |- respects _ (for_each _ _) => apply (respects_for_each _); intros ?
  | |- respects _ (try_catch _ _) => apply (respects_try_catch _); [|intros ?]
  | |- respects _ (try_finally _ _) => apply (respects_try_finally _); [|intros ?]
  | |- respects _ (the_obj _) => apply (respects_the_obj _)
  | |- respects _ (the_observer _) => apply (respects_the_observer _)
  | |- respects _ (the_watcher _) => apply (respects_the_watcher _)
  | |- respects _ (the_vm _) => apply (respects_the_vm _)
  | |- respects _ (the_closure _) => apply (respects_the_closure _)
  | |- respects _ (match ?x with _ => _ end) => destruct x eqn:?
  | |- respects _ (if ?x then _ else _) => destruct x eqn:?
  | |- respects _ (let '(_, _) := ?x in _) => destruct x eqn:?
  end.

Ltac respects_auto := repeat (respects_step; try done; eauto).

(** ** Tracked steps *)

Lemma tracked_trans L a b c : tracked L a b -> tracked L b c -> tracked L a c.
Proof.
  intros Hab Hbc. induction Hbc.
  - done.
  - by apply tracked_log.
  - by apply tracked_depend.
Qed.

Global Instance tracked_preorder L : PreOrder (tracked L).
Proof. split; [intros st; apply tracked_refl|intros a b c; apply tracked_trans]. Qed.

Lemma tracked_mono (L L' : Event -> Prop) a b :
  (forall ev, L ev -> L' ev) -> tracked L a b -> tracked L' a b.
Proof.
  intros HL H. induction H.
  - apply tracked_refl.
  - apply tracked_log; auto.
  - by apply tracked_depend.
Qed.

Section Reads.

Context (L : Event -> Prop).

Hypothesis L_user_get : forall o k, L (EvUserGet o k).

Lemma reads_log ev : L ev -> is_depend ev = false -> respects (tracked L) (log ev).
Proof. intros H1 H2 st. apply tracked_log; [apply tracked_refl|done..]. Qed.

Lemma reads_depend d : respects (tracked L) (Dep_depend d).
Proof. intros st. apply tracked_depend, tracked_refl. Qed.

Lemma reads_depend_on_marker e : respects (tracked L) (depend_on_marker e).
Proof.
  unfold depend_on_marker. respects_auto. apply reads_depend.
Qed.

Lemma reads_dependArray depth value : respects (tracked L) (dependArray depth value).
Proof.
  revert value. induction depth as [|depth IH]; intros value; simpl.
  - apply (respects_throw _).
  - respects_auto. apply reads_depend_on_marker.
Qed.

Lemma reads_reactiveGetter_with inner depth d :
  (forall o k g, respects (tracked L) (inner o k g)) ->
  respects (tracked L) (reactiveGetter_with inner depth d).
Proof.
  intros Hinner. unfold reactiveGetter_with.
  respects_auto; try apply reads_depend; try apply reads_dependArray.
Qed.

Lemma reads_call_getter depth this k g :
  respects (tracked L) (call_getter depth this k g).
Proof.
  revert this k g. induction depth as [|depth IH]; intros this k g;
    destruct g; simpl; respects_auto; try (apply reads_log; done).
  by apply reads_reactiveGetter_with.
Qed.

Lemma reads_read depth o k : respects (tracked L) (read depth o k).
Proof. unfold read. respects_auto. apply reads_call_getter. Qed.

Lemma reads_eval_expr depth e : respects (tracked L) (eval_expr depth e).
Proof. induction e; simpl; respects_auto. apply reads_read. Qed.

End Reads.

(** ** What stays fixed while dependencies are collected *)

Global Instance same_world_preorder : PreOrder same_world.
Proof.
  split.
  - intros st. repeat split.
  - intros a b c Hab Hbc. unfold same_world in *.
    destruct_and!. repeat split; congruence.
Qed.

Lemma addDep_same_world w d : respects same_world (addDep w d).
Proof.
  intros st. unfold addDep, bind, the_watcher.
  destruct (st_watchers st !! w) as [wr|]; simpl; [|reflexivity].
  destruct (decide (d ∈ w_newDepIds wr)); simpl; [reflexivity|].
  destruct (decide (d ∈ w_depIds wr)); simpl; [repeat split|].
  unfold Dep_addSub. simpl.
  destruct (decide (w ∈ _)); simpl; repeat split.
Qed.

Lemma Dep_depend_same_world d : respects same_world (Dep_depend d).
Proof.
  unfold Dep_depend. respects_auto; try apply addDep_same_world.
  all: try (intros st; repeat split).
Qed.

Lemma tracked_same_world L st0 st : tracked L st0 st -> same_world st0 st.
Proof.
  induction 1.
  - reflexivity.
  - etrans; [eassumption|]. repeat split.
  - etrans; [eassumption|]. apply Dep_depend_same_world.
Qed.

Global Instance trace_extends_preorder P : PreOrder (trace_extends P).
Proof.
  split.
  - intros st. exists []. by rewrite app_nil_r.
  - intros a b c (n1 & E1 & F1) (n2 & E2 & F2). exists (n1 ++ n2).
    split; [by rewrite E2, E1, app_assoc|by apply Forall_app].
Qed.

Lemma trace_extends_mono (P Q : Event -> Prop) st0 st :
  (forall ev, P ev -> Q ev) -> trace_extends P st0 st -> trace_extends Q st0 st.
Proof.
  intros HPQ (new & E & F). exists new. split; [done|].
  eapply Forall_impl; eauto.
Qed.

Lemma trace_extends_log (P : Event -> Prop) ev :
  P ev -> respects (trace_extends P) (log ev).
Proof. intros H st. exists [ev]. split; [done|by constructor]. Qed.

Lemma trace_extends_same_trace (P : Event -> Prop) st st' :
  st_trace st' = st_trace st -> trace_extends P st st'.
Proof. intros E. exists []. by rewrite app_nil_r. Qed.

Lemma addDep_trace w d st : st_trace (addDep w d st).2 = st_trace st.
Proof.
  unfold addDep, bind, the_watcher.
  destruct (st_watchers st !! w) as [wr|]; simpl; [|done].
  destruct (decide (d ∈ w_newDepIds wr)); simpl; [done|].
  destruct (decide (d ∈ w_depIds wr)); simpl; [done|].
  unfold Dep_addSub. simpl.
  destruct (decide (w ∈ _)); simpl; done.
Qed.

Lemma Dep_depend_trace d st :
  st_trace (Dep_depend d st).2 = st_trace st ++ [EvDepend d (st_target st)].
Proof.
  unfold Dep_depend, bind, gets, log, modify. simpl.
  destruct (st_target st) as [w|]; simpl; [|done].
  by rewrite addDep_trace.
Qed.

Lemma tracked_trace_extends (L : Event -> Prop) st0 st :
  tracked L st0 st ->
  trace_extends (fun ev => L ev \/ is_depend ev = true) st0 st.
Proof.
  induction 1.
  - reflexivity.
  - etrans; [eassumption|]. apply trace_extends_log. by left.
  - etrans; [eassumption|]. exists [EvDepend d (st_target st)].
    split; [apply Dep_depend_trace|]. constructor; [by right|constructor].
Qed.

(** ** Subscriber lists *)

Lemma elem_of_remove x w (l : list nat) :
  NoDup l -> x ∈ remove w l <-> x ∈ l /\ x <> w.
Proof.
  induction l as [|y l IH]; simpl; intros Hnd.
  - set_solver.
  - apply NoDup_cons in Hnd as [Hy Hnd]. destruct (decide (y = w)) as [->|Hne].
    + split; [intros Hx; split; [set_solver|]|set_solver].
      intros ->. done.
    + rewrite elem_of_cons, IH by done. set_solver.
Qed.

Lemma remove_subseteq w (l : list nat) : remove w l ⊆ l.
Proof.
  induction l as [|y l IH]; simpl; [done|].
  destruct (decide (y = w)); set_solver.
Qed.

Lemma NoDup_remove w (l : list nat) : NoDup l -> NoDup (remove w l).
Proof.
  induction l as [|y l IH]; simpl; intros Hnd; [done|].
  apply NoDup_cons in Hnd as [Hy Hnd]. destruct (decide (y = w)); [done|].
  apply NoDup_cons. split; [|auto].
  intros Hin. apply Hy. by apply (remove_subseteq w).
Qed.

Lemma remove_not_in w (l : list nat) : w ∉ l -> remove w l = l.
Proof.
  induction l as [|y l IH]; simpl; intros Hw; [done|].
  destruct (decide (y = w)) as [->|]; [set_solver|].
  f_equal. apply IH. set_solver.
Qed.

Lemma subs_of_insert d d' l st :
  subs_of (set_subs <[d := l]> st) d' = if decide (d = d') then l else subs_of st d'.
Proof.
  unfold subs_of. simpl. destruct (decide (d = d')) as [->|].
  - by rewrite lookup_insert_eq.
  - by rewrite lookup_insert_ne.
Qed.

Lemma Dep_removeSub_spec d w st :
  exists st', Dep_removeSub d w st = (Ok tt, st') /\
    same_world st st' /\ st_watchers st' = st_watchers st /\
    st_trace st' = st_trace st /\
    (forall d', subs_of st' d' =
       if decide (d = d') then remove w (subs_of st d') else subs_of st d').
Proof.
  unfold Dep_removeSub. destruct (st_subs st !! d) as [subs|] eqn:E.
  - eexists. split; [done|]. split; [repeat split|]. split; [done|]. split; [done|].
    intros d'. rewrite subs_of_insert. destruct (decide (d = d')) as [Heq|]; [subst d'|done].
    unfold subs_of. by rewrite E.
  - exists st. split; [done|]. split; [reflexivity|]. split; [done|]. split; [done|].
    intros d'. destruct (decide (d = d')) as [Heq|]; [subst d'|done].
    unfold subs_of. by rewrite E.
Qed.

Lemma for_each_removeSub (keep : nat -> bool) w (l : list nat) st :
  DepInv st ->
  exists st',
    for_each (fun dep => if keep dep then ret tt else Dep_removeSub dep w) l st
      = (Ok tt, st') /\
    same_world st st' /\ st_watchers st' = st_watchers st /\
    st_trace st' = st_trace st /\ DepInv st' /\
    (forall d w', w' ∈ subs_of st' d <->
       w' ∈ subs_of st d /\ ~ (w' = w /\ d ∈ l /\ keep d = false)).
Proof.
  revert st. induction l as [|x l IH]; intros st Hinv; simpl.
  - exists st. split; [done|]. split; [reflexivity|].
    split; [done|]. split; [done|]. split; [done|].
    intros d w'. split; [|tauto]. intros H. split; [done|].
    intros (_ & Hin & _). by apply elem_of_nil in Hin.
  - unfold bind.
    assert (exists st1, (if keep x then ret tt else Dep_removeSub x w) st = (Ok tt, st1) /\
      same_world st st1 /\ st_watchers st1 = st_watchers st /\
      st_trace st1 = st_trace st /\ DepInv st1 /\
      (forall d w', w' ∈ subs_of st1 d <->
         w' ∈ subs_of st d /\ ~ (w' = w /\ d = x /\ keep d = false)))
      as (st1 & E1 & Hw1 & Hws1 & Ht1 & Hinv1 & Hs1).
    { destruct (keep x) eqn:Hk.
      - exists st. split; [done|]. split; [reflexivity|].
        split; [done|]. split; [done|]. split; [done|].
        intros d w'. split; [|tauto]. intros H. split; [done|].
        intros (_ & -> & Hk'). congruence.
      - destruct (Dep_removeSub_spec x w st) as (st1 & E1 & Hw1 & Hws1 & Ht1 & Hs1).
        exists st1. split; [done|]. split; [done|]. split; [done|]. split; [done|].
        split.
        + intros d. rewrite Hs1. destruct (decide (x = d)); [apply NoDup_remove|]; apply Hinv.
        + intros d w'. rewrite Hs1. destruct (decide (x = d)) as [Heq|Hne].
          * subst d. rewrite elem_of_remove by apply Hinv. split.
            -- intros [H1 H2]. split; [done|]. intros (-> & _). done.
            -- intros [H1 H2]. split; [done|]. intros ->. by apply H2.
          * split; [|tauto]. intros H. split; [done|]. intros (_ & -> & _). done. }
    rewrite E1.
    destruct (IH st1 Hinv1) as (st' & E & Hw & Hws & Ht & Hi & Hs).
    exists st'. split; [done|]. split; [etrans; eauto|].
    split; [congruence|]. split; [congruence|]. split; [done|].
    intros d w'. rewrite Hs, Hs1. rewrite elem_of_cons. 
    destruct (keep d); destruct (decide (d = x)); naive_solver.
Qed.

(** ** The collecting invariant *)

Lemma upd_deps_id wr :
  w_newDeps wr = [] -> w_newDepIds wr = ∅ ->
  upd_deps (w_deps wr) [] (w_depIds wr) ∅ wr = wr.
Proof. destruct wr; simpl; intros -> ->. done. Qed.

Lemma upd_deps_upd_deps a b c d a' b' c' d' wr :
  upd_deps a b c d (upd_deps a' b' c' d' wr) = upd_deps a b c d wr.
Proof. done. Qed.

(** [addDep]: a dep already in the new set is left alone; otherwise it
    joins the new set and list, and the watcher subscribes unless the dep
    is in the current set. *)
Lemma addDep_spec w d st wr :
  st_watchers st !! w = Some wr ->
  exists st', addDep w d st = (Ok tt, st') /\
    same_world st st' /\ st_trace st' = st_trace st /\
    (d ∈ w_newDepIds wr -> st' = st) /\
    (d ∉ w_newDepIds wr ->
       st_watchers st' =
         (<[w := upd_deps (w_deps wr) (w_newDeps wr ++ [d]) (w_depIds wr)
                   ({[d]} ∪ w_newDepIds wr) wr]> (st_watchers st)) /\
       forall d', subs_of st' d' =
         subs_of st d' ++
           (if decide (d' = d /\ (d ∉ w_depIds wr) /\ (w ∉ subs_of st d)) then [w] else [])).
Proof.
  intros Hw. unfold addDep, bind, the_watcher. rewrite Hw. simpl.
  destruct (decide (d ∈ w_newDepIds wr)) as [Hin|Hnin]; simpl.
  { exists st. split; [done|]. split; [reflexivity|]. split; [done|]. split; [done|].
    intros H. done. }
  destruct (decide (d ∈ w_depIds wr)) as [Hdep|Hdep]; simpl.
  { eexists. split; [done|]. split; [repeat split|]. split; [done|].
    split; [intros H; done|]. intros _. split; [done|].
    intros d'. rewrite decide_False by tauto. by rewrite app_nil_r. }
  unfold Dep_addSub. simpl.
  match goal with |- context [subs_of ?s d] =>
    change (subs_of s d) with (subs_of st d) end.
  destruct (decide (w ∈ subs_of st d)) as [Hwin|Hwin]; simpl.
  { eexists. split; [done|]. split; [repeat split|]. split; [done|].
    split; [intros H; done|]. intros _. split; [done|].
    intros d'. rewrite decide_False by tauto. by rewrite app_nil_r. }
  eexists. split; [done|]. split; [repeat split|]. split; [done|].
  split; [intros H; done|]. intros _. split; [done|].
  intros d'. rewrite subs_of_insert. destruct (decide (d = d')) as [<-|Hne].
  - by rewrite decide_True.
  - rewrite decide_False by naive_solver. by rewrite app_nil_r.
Qed.

Lemma tracked_collected L w wr0 st0 st :
  st_target st0 = Some w ->
  st_watchers st0 !! w = Some wr0 ->
  w_newDeps wr0 = [] -> w_newDepIds wr0 = ∅ ->
  tracked L st0 st -> collected w wr0 st0 st.
Proof.
  intros Htgt Hw Hn1 Hn2 Htr. induction Htr as [|st ev Htr IH HL Hev|st d Htr IH].
  - exists [], []. split.
    { change (list_to_set []) with (∅ : gset nat).
      rewrite upd_deps_id by done. by rewrite insert_id. }
    split; [by rewrite app_nil_r|]. split; [constructor|]. split.
    { intros d. split; intros H; by apply elem_of_nil in H. }
    intros d. rewrite decide_False; [by rewrite app_nil_r|].
    intros [H _]. by apply elem_of_nil in H.
  - destruct IH as (N & new & Hws & Ht & Hnd & HN & Hs).
    exists N, (new ++ [ev]). split; [done|]. split.
    { simpl. by rewrite Ht, app_assoc. }
    split; [done|]. split; [|done].
    intros d. rewrite HN. rewrite elem_of_app, list_elem_of_singleton.
    split; [by left|]. intros [H|H]; [done|]. subst ev. done.
  - destruct IH as (N & new & Hws & Ht & Hnd & HN & Hs).
    pose proof (tracked_same_world _ _ _ Htr) as Hsw.
    assert (st_target st = Some w) as Htgt'.
    { unfold same_world in Hsw. destruct_and!. congruence. }
    unfold Dep_depend, bind, gets, log, modify. simpl. rewrite Htgt'. simpl.
    set (st1 := set_trace _ st).
    assert (st_watchers st1 !! w =
            Some (upd_deps (w_deps wr0) N (w_depIds wr0) (list_to_set N) wr0)) as Hlk.
    { simpl. rewrite Hws. apply lookup_insert_eq. }
    destruct (addDep_spec w d st1 _ Hlk) as (st' & E & _ & Ht' & Hold & Hnew).
    rewrite E. simpl in *.
    destruct (decide (d ∈ (list_to_set N : gset nat))) as [Hin|Hnin].
    + rewrite (Hold Hin). exists N, (new ++ [EvDepend d (Some w)]).
      split; [done|]. split; [simpl; by rewrite Ht, app_assoc|].
      split; [done|]. split; [|done].
      intros d'. rewrite elem_of_app, list_elem_of_singleton, <- HN.
      split; [by left|]. intros [H|H]; [done|]. inversion H; subst.
      by apply elem_of_list_to_set in Hin.
    + destruct (Hnew Hnin) as [HW HS].
      assert (d ∉ N) as HdN by (by rewrite <- (elem_of_list_to_set (C:=gset nat))).
      assert (forall d', d' ∈ N ++ [d] <-> d' ∈ N \/ d' = d) as HN'.
      { intros d'. by rewrite elem_of_app, list_elem_of_singleton. }
      exists (N ++ [d]), (new ++ [EvDepend d (Some w)]). split.
      { rewrite HW, Hws, insert_insert_eq.
        assert (({[d]} ∪ list_to_set N : gset nat) = list_to_set (N ++ [d])) as ->
          by (rewrite list_to_set_app_L; simpl; set_solver).
        done. }
      split; [rewrite Ht', Ht; by rewrite app_assoc|].
      split.
      { apply NoDup_app. split; [done|]. split; [|apply NoDup_singleton].
        intros x Hx Hx'. apply list_elem_of_singleton in Hx'. by subst. }
      split.
      { intros d'. rewrite HN', elem_of_app, list_elem_of_singleton, <- HN.
        split; [intros [H| ->]; [by left|by right]|].
        intros [H|H]; [by left|]. inversion H. by right. }
      intros d'. rewrite HS.
      change (subs_of st1 d') with (subs_of st d').
      change (subs_of st1 d) with (subs_of st d).
      rewrite !Hs. rewrite (decide_False (P := d ∈ N ∧ _)) by tauto.
      rewrite app_nil_r, <- app_assoc. f_equal.
      destruct (decide (d' = d)) as [->|Hne].
      * rewrite (decide_False (P := d ∈ N ∧ _)) by tauto. simpl.
        destruct (decide (d = d ∧ _)) as [H|H].
        -- rewrite decide_True; [done|]. rewrite HN'. tauto.
        -- rewrite decide_False; [done|]. rewrite HN'. tauto.
      * rewrite (decide_False (P := d' = d ∧ _)) by tauto. rewrite app_nil_r.
        destruct (decide (d' ∈ N ∧ _)) as [H|H].
        -- rewrite decide_True; [done|]. rewrite HN'. tauto.
        -- rewrite decide_False; [done|]. rewrite HN'. tauto.
Qed.

(** ** One evaluation *)

Global Instance same_heap_preorder : PreOrder same_heap.
Proof.
  split.
  - intros st. repeat split.
  - intros a b c Hab Hbc. unfold same_heap in *.
    destruct_and!. repeat split; congruence.
Qed.

Lemma same_world_same_heap st0 st : same_world st0 st -> same_heap st0 st.
Proof. unfold same_world, same_heap. intros H. destruct_and!. repeat split; done. Qed.

Lemma for_each_depend_ok (l : list DepId) st w :
  st_target st = Some w -> is_Some (st_watchers st !! w) ->
  (for_each Dep_depend l st).1 = Ok tt.
Proof.
  revert st. induction l as [|d l IH]; intros st Htgt [wr Hw]; simpl; [done|].
  unfold bind. unfold Dep_depend at 1. unfold bind, gets, log, modify. simpl.
  rewrite Htgt. simpl.
  set (st1 := set_trace _ st).
  destruct (addDep_spec w d st1 wr Hw) as (st' & E & Hsw & _ & Hold & Hnew).
  rewrite E. apply IH.
  - destruct Hsw as (_ & -> & _). done.
  - destruct (decide (d ∈ w_newDepIds wr)) as [Hin|Hnin].
    + rewrite (Hold Hin). by eexists.
    + destruct (Hnew Hnin) as [-> _]. rewrite lookup_insert_eq. by eexists.
Qed.

Section Evaluation.

Variable traverse_deps : State -> Val -> list DepId * option Exn.

Lemma reads_traverse (L : Event -> Prop) v :
  L (EvTraverse v) -> respects (tracked L) (traverse traverse_deps v).
Proof.
  intros HL. unfold traverse. respects_auto.
  - by apply reads_log.
  - apply reads_depend.
Qed.

(** The traversal ends as the collaborator says. *)
Lemma traverse_result v st w :
  st_target st = Some w -> is_Some (st_watchers st !! w) ->
  (traverse traverse_deps v st).1 =
    match (traverse_deps (log (EvTraverse v) st).2 v).2 with
    | Some e => Throw e
    | None => Ok tt
    end.
Proof.
  intros Htgt Hw. unfold traverse, bind, log, modify, gets. cbv beta iota.
  set (st1 := set_trace _ st).
  pose proof (for_each_depend_ok (traverse_deps st1 v).1 st1 w Htgt Hw) as Hok.
  destruct (for_each Dep_depend _ st1) as [r s1]. simpl in Hok. subst r.
  simpl. by destruct (traverse_deps st1 v).2.
Qed.

Lemma reads_get_traverse wr r : respects (tracked L_eval) (get_traverse traverse_deps wr r).
Proof. unfold get_traverse. apply (respects_when _). by apply reads_traverse. Qed.

Lemma reads_get_body depth w wr : respects (tracked L_eval) (get_body depth w wr).
Proof.
  unfold get_body, handleError. respects_auto; try (by apply reads_log).
  by apply reads_eval_expr.
Qed.

Lemma get_unfold depth w st wr :
  st_watchers st !! w = Some wr ->
  get traverse_deps depth w st =
    try_finally (get_body depth w wr)
      (fun completion =>
         let value := match completion with Ok v => v | Throw _ => VUndef end in
         when (w_deep wr) (traverse traverse_deps value) ;;
         popTarget ;;
         cleanupDeps w)
      (set_target (Some w) (Some w :: st_targetStack st) st).
Proof. intros Hw. unfold get, bind, the_watcher. rewrite Hw. reflexivity. Qed.

(** [cleanupDeps]: the watcher leaves the subscribers of every dep of the
    previous pass that is absent from the new set, then the buffers are
    swapped and the new ones cleared. *)
Lemma cleanupDeps_spec w st wr :
  st_watchers st !! w = Some wr ->
  DepInv st ->
  exists st', cleanupDeps w st = (Ok tt, st') /\
    st_watchers st' =
      (<[w := upd_deps (w_newDeps wr) [] (w_newDepIds wr) ∅ wr]> (st_watchers st)) /\
    same_world st st' /\ st_trace st' = st_trace st /\ DepInv st' /\
    (forall d w', w' ∈ subs_of st' d <->
       w' ∈ subs_of st d /\ ~ (w' = w /\ d ∈ w_deps wr /\ d ∉ w_newDepIds wr)).
Proof.
  intros Hw Hinv. unfold cleanupDeps, bind, the_watcher. rewrite Hw.
  destruct (for_each_removeSub (fun d => bool_decide (d ∈ w_newDepIds wr))
              w (reverse (w_deps wr)) st Hinv)
    as (st5 & E5 & Hsw5 & HW5 & HT5 & Hinv5 & HS5).
  rewrite E5. rewrite HW5, Hw. unfold put_watcher, modify.
  eexists. split; [done|]. split; [simpl; by rewrite HW5|].
  split.
  { etrans; [exact Hsw5|]. repeat split. }
  split; [done|]. split; [done|].
  intros d w'. change (subs_of (set_watchers _ st5) d) with (subs_of st5 d).
  rewrite HS5, elem_of_reverse, bool_decide_eq_false. done.
Qed.

(** What one evaluation does, for a watcher whose "new" buffers are
    empty: the evaluator runs, then the deep traversal; when that throws
    [get] ends there, otherwise the slot is popped and the buffers are
    reconciled. *)
Lemma get_spec depth w st wr :
  st_watchers st !! w = Some wr ->
  w_newDeps wr = [] -> w_newDepIds wr = ∅ ->
  DepInv st ->
  exists rb st2 rt st3,
    get_body depth w wr (set_target (Some w) (Some w :: st_targetStack st) st)
      = (rb, st2) /\
    get_traverse traverse_deps wr rb st2 = (rt, st3) /\
    tracked L_eval (set_target (Some w) (Some w :: st_targetStack st) st) st3 /\
    match rt with
    | Throw e => get traverse_deps depth w st = (Throw e, st3)
    | Ok _ =>
        exists st' N new,
          get traverse_deps depth w st = (rb, st') /\
          st_watchers st' =
            (<[w := upd_deps N [] (list_to_set N) ∅ wr]> (st_watchers st)) /\
          st_trace st' = st_trace st ++ new /\
          Forall (fun ev => L_eval ev \/ is_depend ev = true) new /\
          NoDup N /\
          (forall d, d ∈ N <-> EvDepend d (Some w) ∈ new) /\
          st_targetStack st' = st_targetStack st /\
          st_target st' = default None (head (st_targetStack st)) /\
          same_heap st st' /\
          DepInv st' /\
          (forall d w', w' ∈ subs_of st' d <->
             (w' ∈ subs_of st d \/ (w' = w /\ d ∈ N /\ d ∉ w_depIds wr)) /\
             ~ (w' = w /\ d ∈ w_deps wr /\ d ∉ N))
    end.
Proof.
  intros Hw Hn1 Hn2 Hinv.
  pose proof (get_unfold depth w st wr Hw) as Hget. unfold try_finally in Hget.
  set (st1 := set_target (Some w) (Some w :: st_targetStack st) st) in *.
  pose proof (reads_get_body depth w wr st1) as Htr.
  destruct (get_body depth w wr st1) as [rb st2] eqn:Ebody. simpl in Htr.
  cbv zeta in Hget. unfold bind at 1 in Hget.
  change (when (w_deep wr) _ st2) with (get_traverse traverse_deps wr rb st2) in Hget.
  pose proof (reads_get_traverse wr rb st2) as Htr23.
  destruct (get_traverse traverse_deps wr rb st2) as [rt st3] eqn:Etrav. simpl in Htr23.
  assert (tracked L_eval st1 st3) as Htr3 by (by etrans).
  exists rb, st2, rt, st3. split; [done|]. split; [done|]. split; [done|].
  destruct rt as [[]|e]; [|done].
  destruct (tracked_collected L_eval w wr st1 st3) as (N & new & HW & HT & Hnd & HN & HS);
    try done.
  pose proof (tracked_same_world _ _ _ Htr3) as Hsw.
  pose proof (tracked_trace_extends _ _ _ Htr3) as (new' & HT' & Hnew').
  assert (new' = new) as -> by (rewrite HT in HT'; by apply app_inv_head in HT').
  (* popTarget *)
  unfold popTarget, bind at 1, modify in Hget.
  assert (st_targetStack st3 = Some w :: st_targetStack st) as Hstack.
  { destruct Hsw as (_ & _ & -> & _). done. }
  rewrite Hstack in Hget. cbn [tail] in Hget.
  set (st4 := set_target _ _ st3) in Hget.
  (* cleanupDeps *)
  assert (DepInv st4) as Hinv4.
  { intros d. change (subs_of st4 d) with (subs_of st3 d). rewrite HS.
    change (subs_of st1 d) with (subs_of st d).
    destruct (decide _) as [(_ & _ & Hnin)|]; [|rewrite app_nil_r; apply Hinv].
    apply NoDup_app. split; [apply Hinv|]. split; [|apply NoDup_singleton].
    intros x Hx Hx'. apply list_elem_of_singleton in Hx'. by subst. }
  assert (st_watchers st4 !! w =
          Some (upd_deps (w_deps wr) N (w_depIds wr) (list_to_set N) wr)) as Hw4.
  { change (st_watchers st4) with (st_watchers st3). by rewrite HW, lookup_insert_eq. }
  destruct (cleanupDeps_spec w st4 _ Hw4 Hinv4)
    as (st5 & E5 & HW5 & Hsw5 & HT5 & Hinv5 & HS5).
  rewrite E5 in Hget. exists st5, N, new.
  split; [done|]. split.
  { rewrite HW5. change (st_watchers st4) with (st_watchers st3).
    rewrite HW. by rewrite insert_insert_eq. }
  split; [by rewrite HT5|]. split; [done|]. split; [done|]. split; [done|].
  split; [destruct Hsw5 as (_ & _ & -> & _); done|].
  split; [destruct Hsw5 as (_ & -> & _); done|].
  split.
  { apply same_world_same_heap in Hsw5, Hsw. etrans; [|exact Hsw5].
    etrans; [|etrans; [exact Hsw|]]; repeat split. }
  split; [done|].
  intros d w'. rewrite HS5. change (subs_of st4 d) with (subs_of st3 d). rewrite HS.
  change (subs_of st1 d) with (subs_of st d). simpl.
  rewrite elem_of_list_to_set.
  rewrite elem_of_app. destruct (decide (d ∈ N ∧ _)) as [(H1 & H2 & H3)|Hn].
  - rewrite list_elem_of_singleton. naive_solver.
  - split.
    + intros [[H|H] H']; [|by apply elem_of_nil in H]. split; [by left|done].
    + intros [[H|(-> & H1 & H2)] H']; (split; [|done]); [by left|].
      left. destruct (decide (w ∈ subs_of st d)); [done|]. exfalso. apply Hn. done.
Qed.

End Evaluation.

(** ** The events of the watcher operations *)

Lemma respects_weaken (R R' : relation State) {A} (m : M A) :
  (forall a b, R a b -> R' a b) -> respects R m -> respects R' m.
Proof. intros H Hm st. apply H, Hm. Qed.

Lemma Dep_removeSub_trace d w : respects (trace_extends E_get) (Dep_removeSub d w).
Proof.
  intros st. destruct (Dep_removeSub_spec d w st) as (st' & -> & _ & _ & Ht & _).
  by apply trace_extends_same_trace.
Qed.

Section WatcherEvents.

Variable traverse_deps : State -> Val -> list DepId * option Exn.

Lemma get_events depth w : respects (trace_extends E_get) (get traverse_deps depth w).
Proof.
  unfold get. apply (respects_bind _); [apply (respects_the_watcher _)|intros wr].
  apply (respects_bind _); [intros st; by apply trace_extends_same_trace|intros _].
  apply (respects_try_finally _).
  - eapply respects_weaken; [|apply (reads_get_body depth w wr)].
    intros ? ?; apply tracked_trace_extends.
  - intros r. apply (respects_bind _); [|intros _].
    { apply (respects_when _). eapply respects_weaken; [|by apply (reads_traverse _ L_eval)].
      intros ? ?; apply tracked_trace_extends. }
    apply (respects_bind _); [intros st; by apply trace_extends_same_trace|intros _].
    unfold cleanupDeps. respects_auto;
      try apply Dep_removeSub_trace;
      try (intros st; by apply trace_extends_same_trace).
Qed.

Lemma run_events depth w : respects (trace_extends E_run) (run traverse_deps depth w).
Proof.
  assert (forall wr v o, respects (trace_extends E_run) (call_cb w wr v o)) as Hcb.
  { intros wr v o. unfold call_cb. respects_auto;
      apply trace_extends_log; by right. }
  unfold run, handleError. respects_auto; try apply Hcb;
    try (intros st; by apply trace_extends_same_trace);
    try (apply trace_extends_log; left; by left).
  eapply respects_weaken; [|apply get_events].
  intros ? ?; apply trace_extends_mono. by left.
Qed.

Lemma update_events depth w l :
  w ∈ l -> respects (trace_extends (E_update l)) (update traverse_deps depth w).
Proof.
  intros Hw. unfold update, queueWatcher. respects_auto;
    try (intros st; by apply trace_extends_same_trace);
    try (apply trace_extends_log; right; by eauto).
  eapply respects_weaken; [|apply run_events].
  intros ? ?; apply trace_extends_mono. by left.
Qed.

Lemma for_each_update_events depth l :
  respects (trace_extends (E_update l)) (for_each (update traverse_deps depth) l).
Proof.
  assert (forall l', l' ⊆ l ->
    respects (trace_extends (E_update l)) (for_each (update traverse_deps depth) l')) as H.
  { induction l' as [|x l' IH]; intros Hsub; simpl.
    - apply (respects_ret _).
    - apply (respects_bind _); [|intros _; apply IH; set_solver].
      apply update_events. set_solver. }
  by apply H.
Qed.

(** [notify()] records itself, then updates the subscribers of the
    snapshot and no other watcher. *)
Lemma Dep_notify_events depth d st :
  exists rest,
    st_trace (Dep_notify traverse_deps depth d st).2
      = st_trace st ++ EvNotify d :: rest /\
    Forall (E_update (subs_of st d)) rest.
Proof.
  unfold Dep_notify, bind, log, modify, gets. simpl.
  set (st1 := set_trace _ st).
  set (subs := if st_production st then _ else _).
  destruct (for_each_update_events depth subs st1) as (rest & E & HF).
  exists rest. split.
  { rewrite E. simpl. by rewrite <- app_assoc. }
  eapply Forall_impl; [exact HF|]. intros ev [H|(w & Hw & H)]; [by left|].
  right. exists w. split; [|done]. subst subs.
  change (subs_of st1 d) with (subs_of st d) in Hw.
  destruct (st_production st); [done|].
  by rewrite merge_sort_Permutation in Hw.
Qed.

End WatcherEvents.

(** * The dependency invariant (C1) *)

(** Both invariants in a form that can be checked on a given state. *)
Lemma DepInv_intro st :
  map_Forall (fun _ l => NoDup l) (st_subs st) -> DepInv st.
Proof.
  intros H d. unfold subs_of. destruct (st_subs st !! d) as [l|] eqn:E; simpl.
  - by apply (H d).
  - constructor.
Qed.

Lemma WatcherInv_intro st w wr :
  st_watchers st !! w = Some wr ->
  w_newDeps wr = [] -> w_newDepIds wr = ∅ ->
  w_depIds wr = list_to_set (w_deps wr) ->
  Forall (fun d => w ∈ subs_of st d) (w_deps wr) ->
  map_Forall (fun d l => w ∈ l -> d ∈ w_deps wr) (st_subs st) ->
  WatcherInv st w.
Proof.
  intros Hw H1 H2 H3 H4 H5. exists wr. repeat split; try done.
  - unfold subs_of. destruct (st_subs st !! d) as [l|] eqn:E; simpl.
    + by apply (H5 d).
    + intros H. by apply elem_of_nil in H.
  - intros Hd. rewrite Forall_forall in H4. by apply H4.
Qed.

Section DependencyInvariant.

Variable traverse_deps : State -> Val -> list DepId * option Exn.

(** C1, amended.  For a watcher that satisfies the subscription invariant
    (as after its construction or after an evaluation that completed, and
    unlike after [teardown]), an evaluation [get] runs the evaluator and
    then, for a [deep] watcher, the traversal.  When the traversal throws,
    [get] ends with that error.  Otherwise the evaluation completes: the
    current list [deps] holds exactly the deps whose [depend()] was invoked
    during it, each once, [depIds] holds their ids, the watcher is
    subscribed to exactly those deps and the subscriptions of the other
    watchers are as before; the invariant holds again, and a [notify()] of
    a dep that the evaluation did not touch does not update the watcher. *)
Theorem get_collects_exactly_the_touched_deps depth w st :
  DepInv st -> WatcherInv st w ->
  exists wr rb st2 rt st3,
    st_watchers st !! w = Some wr /\
    get_body depth w wr (pushTarget (Some w) st).2 = (rb, st2) /\
    get_traverse traverse_deps wr rb st2 = (rt, st3) /\
    match rt with
    | Throw e =>
        w_deep wr = true /\ get traverse_deps depth w st = (Throw e, st3)
    | Ok _ =>
        exists st' wr' new,
          get traverse_deps depth w st = (rb, st') /\
          st_watchers st' !! w = Some wr' /\
          st_trace st' = st_trace st ++ new /\
          (forall d, d ∈ w_deps wr' <-> EvDepend d (Some w) ∈ new) /\
          NoDup (w_deps wr') /\
          w_depIds wr' = list_to_set (w_deps wr') /\
          (forall d, w ∈ subs_of st' d <-> d ∈ w_deps wr') /\
          (forall d w', w' <> w -> w' ∈ subs_of st' d <-> w' ∈ subs_of st d) /\
          DepInv st' /\ WatcherInv st' w /\
          (forall d depth', EvDepend d (Some w) ∉ new ->
             exists fired,
               st_trace (Dep_notify traverse_deps depth' d st').2
                 = st_trace st' ++ fired /\
               EvUpdate w ∉ fired)
    end.
Proof.
  intros Hinv (wr & Hw & Hn1 & Hn2 & Hids & Hsub).
  destruct (get_spec traverse_deps depth w st wr Hw Hn1 Hn2 Hinv)
    as (rb & st2 & rt & st3 & Ebody & Etrav & _ & Hrt).
  exists wr, rb, st2, rt, st3. split; [done|]. split; [done|]. split; [done|].
  destruct rt as [[]|e].
  2: { split; [|done]. unfold get_traverse in Etrav.
       destruct (w_deep wr); [done|]. simpl in Etrav. by inversion Etrav. }
  destruct Hrt as (st' & N & new & E & HW & HT & _ & Hnd & HN & _ & _ & _ & Hinv' & HS).
  assert (forall d, w ∈ subs_of st' d <-> d ∈ N) as Hexact.
  { intros d. rewrite HS, Hsub, Hids, elem_of_list_to_set.
    destruct (decide (d ∈ N)); destruct (decide (d ∈ w_deps wr)); naive_solver. }
  exists st', (upd_deps N [] (list_to_set N) ∅ wr), new.
  split; [done|]. split; [by rewrite HW, lookup_insert_eq|]. split; [done|].
  split; [done|]. split; [done|]. split; [done|]. split; [done|].
  split; [intros d w' Hne; rewrite HS; naive_solver|]. split; [done|].
  split.
  { eexists. split; [by rewrite HW, lookup_insert_eq|]. done. }
  intros d depth' Hd.
  destruct (Dep_notify_events traverse_deps depth' d st') as (rest & ET & HF).
  exists (EvNotify d :: rest). split; [done|].
  intros Hin. apply elem_of_cons in Hin as [Hin|Hin]; [done|].
  rewrite Forall_forall in HF. destruct (HF _ Hin) as [Hrun|(w' & Hw' & Hev)].
  - destruct Hrun as [[H|H]|H]; done.
  - destruct Hev as [Hev|Hev]; [|done]. inversion Hev; subst w'.
    apply Hexact in Hw'. simpl in Hw'. apply Hd. by apply HN.
Qed.

End DependencyInvariant.

(** ** The invariant on a running example *)

Lemma get_collects_exactly_the_touched_deps_witness :
  DepInv Scenario.flag_flipped /\ WatcherInv Scenario.flag_flipped 1 /\
  exists wr rb st2 rt st3,
    st_watchers Scenario.flag_flipped !! 1 = Some wr /\
    get_body 5 1 wr (pushTarget (Some 1) Scenario.flag_flipped).2 = (rb, st2) /\
    get_traverse Scenario.no_traverse wr rb st2 = (rt, st3) /\
    match rt with
    | Throw e =>
        w_deep wr = true /\
        get Scenario.no_traverse 5 1 Scenario.flag_flipped = (Throw e, st3)
    | Ok _ =>
        exists st' wr' new,
          get Scenario.no_traverse 5 1 Scenario.flag_flipped = (rb, st') /\
          st_watchers st' !! 1 = Some wr' /\
          st_trace st' = st_trace Scenario.flag_flipped ++ new /\
          (forall d, d ∈ w_deps wr' <-> EvDepend d (Some 1) ∈ new) /\
          NoDup (w_deps wr') /\
          w_depIds wr' = list_to_set (w_deps wr') /\
          (forall d, 1 ∈ subs_of st' d <-> d ∈ w_deps wr') /\
          (forall d w', w' <> 1 ->
             w' ∈ subs_of st' d <-> w' ∈ subs_of Scenario.flag_flipped d) /\
          DepInv st' /\ WatcherInv st' 1 /\
          (forall d depth', EvDepend d (Some 1) ∉ new ->
             exists fired,
               st_trace (Dep_notify Scenario.no_traverse depth' d st').2
                 = st_trace st' ++ fired /\
               EvUpdate 1 ∉ fired)
    end.
Proof.
  assert (DepInv Scenario.flag_flipped) as H1.
  { apply DepInv_intro. refine (bool_decide_unpack _ _). vm_compute. exact I. }
  assert (WatcherInv Scenario.flag_flipped 1) as H2.
  { eapply WatcherInv_intro; [reflexivity|reflexivity|reflexivity|reflexivity| |];
      refine (bool_decide_unpack _ _); vm_compute; exact I. }
  split; [exact H1|]. split; [exact H2|].
  exact (get_collects_exactly_the_touched_deps Scenario.no_traverse 5 1
           Scenario.flag_flipped H1 H2).
Defined.

(** C1, counterexample.  [teardown] leaves [deps] and [depIds] as they
    are and [get] does not look at [active]: evaluated again, the watcher
    of the running example collects the deps of [flag] and [b], finds
    their ids in [depIds] and subscribes to neither. *)
Lemma get_counterexample :
  teardown 1 Scenario.watched = (Ok tt, TornDown.state) /\
  (let run := get Scenario.no_traverse 5 1 TornDown.state in
   run.1 = Ok (VNum (Fin 7)) /\
   (w_deps <$> st_watchers run.2 !! 1) = Some [2; 3] /\
   subs_of run.2 2 = [] /\ subs_of run.2 3 = []) /\
  ~ get_subscribes_claim.
Proof.
  split; [vm_compute; reflexivity|].
  split; [vm_compute; done|].
  intros H.
  assert (get Scenario.no_traverse 5 1 TornDown.state
          = (Ok (VNum (Fin 7)), (get Scenario.no_traverse 5 1 TornDown.state).2)) as E.
  { vm_compute. reflexivity. }
  assert (exists wr',
            st_watchers (get Scenario.no_traverse 5 1 TornDown.state).2 !! 1 = Some wr'
            /\ w_deps wr' = [2; 3]) as (wr' & Hw' & Hd).
  { eexists. split; [vm_compute; reflexivity|]. reflexivity. }
  assert (2 ∈ w_deps wr') as Hin by (rewrite Hd; apply elem_of_cons; by left).
  pose proof (H Scenario.no_traverse 5 1 TornDown.state _ _ wr' E Hw' 2 Hin) as Hsub.
  vm_compute in Hsub. by apply elem_of_nil in Hsub.
Qed.

(** * Release and reconciliation around a failing evaluator (C2) *)

Global Instance buffers_only_preorder : PreOrder buffers_only.
Proof.
  split.
  - intros st w wr Hw. exists (w_deps wr), (w_newDeps wr), (w_depIds wr), (w_newDepIds wr).
    rewrite Hw. by destruct wr.
  - intros x y z Hxy Hyz w wr Hw.
    destruct (Hxy w wr Hw) as (a & b & c & d & Hy).
    destruct (Hyz w _ Hy) as (a' & b' & c' & d' & Hz).
    exists a', b', c', d'. by rewrite Hz.
Qed.

Lemma buffers_only_same_watchers st st' :
  st_watchers st' = st_watchers st -> buffers_only st st'.
Proof.
  intros E w wr Hw. exists (w_deps wr), (w_newDeps wr), (w_depIds wr), (w_newDepIds wr).
  rewrite E, Hw. by destruct wr.
Qed.

Lemma buffers_only_put w wr a b c d st :
  st_watchers st !! w = Some wr ->
  buffers_only st (put_watcher w (upd_deps a b c d wr) st).2.
Proof.
  intros Hw w' wr' Hw'. simpl. destruct (decide (w = w')) as [<-|Hne].
  - rewrite lookup_insert_eq. assert (wr' = wr) as -> by congruence. eauto.
  - rewrite lookup_insert_ne by done.
    exists (w_deps wr'), (w_newDeps wr'), (w_depIds wr'), (w_newDepIds wr').
    rewrite Hw'. by destruct wr'.
Qed.

Lemma addDep_buffers_only w d : respects buffers_only (addDep w d).
Proof.
  intros st. destruct (st_watchers st !! w) as [wr|] eqn:Hw.
  - destruct (addDep_spec w d st wr Hw) as (st' & -> & _ & _ & Hold & Hnew). simpl.
    destruct (decide (d ∈ w_newDepIds wr)) as [Hin|Hnin].
    + rewrite (Hold Hin). reflexivity.
    + destruct (Hnew Hnin) as [HW _]. intros w' wr' Hw'. rewrite HW.
      destruct (decide (w = w')) as [<-|Hne].
      * rewrite lookup_insert_eq. assert (wr' = wr) as -> by congruence. eauto.
      * rewrite lookup_insert_ne by done.
        exists (w_deps wr'), (w_newDeps wr'), (w_depIds wr'), (w_newDepIds wr').
        rewrite Hw'. by destruct wr'.
  - unfold addDep, bind, the_watcher. rewrite Hw. reflexivity.
Qed.

Lemma tracked_buffers_only L st0 st : tracked L st0 st -> buffers_only st0 st.
Proof.
  induction 1.
  - reflexivity.
  - etrans; [eassumption|]. by apply buffers_only_same_watchers.
  - etrans; [eassumption|]. unfold Dep_depend, bind, gets, log, modify. simpl.
    destruct (st_target st) as [w|]; simpl.
    + etrans; [|apply addDep_buffers_only]. by apply buffers_only_same_watchers.
    + by apply buffers_only_same_watchers.
Qed.

(** [cleanupDeps] always completes. *)
Lemma for_each_removeSub_ok (keep : DepId -> bool) w (l : list DepId) st :
  exists st',
    for_each (fun dep => if keep dep then ret tt else Dep_removeSub dep w) l st
      = (Ok tt, st') /\
    same_world st st' /\ st_watchers st' = st_watchers st /\
    st_trace st' = st_trace st.
Proof.
  revert st. induction l as [|x l IH]; intros st; simpl.
  - exists st. split; [done|]. split; [reflexivity|]. done.
  - unfold bind. destruct (keep x).
    + simpl. apply IH.
    + destruct (Dep_removeSub_spec x w st) as (st1 & -> & Hw1 & Hws1 & Ht1 & _).
      destruct (IH st1) as (st' & E & Hw & Hws & Ht). exists st'.
      split; [done|]. split; [by etrans|]. split; congruence.
Qed.

Lemma cleanupDeps_ok w st wr :
  st_watchers st !! w = Some wr ->
  exists st', cleanupDeps w st = (Ok tt, st') /\
    st_watchers st' =
      (<[w := upd_deps (w_newDeps wr) [] (w_newDepIds wr) ∅ wr]> (st_watchers st)) /\
    same_world st st' /\ st_trace st' = st_trace st.
Proof.
  intros Hw. unfold cleanupDeps, bind, the_watcher. rewrite Hw.
  destruct (for_each_removeSub_ok (fun d => bool_decide (d ∈ w_newDepIds wr))
              w (reverse (w_deps wr)) st) as (st5 & E5 & Hsw5 & HW5 & HT5).
  rewrite E5. rewrite HW5, Hw. unfold put_watcher, modify.
  eexists. split; [done|]. split; [simpl; by rewrite HW5|].
  split; [|done]. etrans; [exact Hsw5|]. repeat split.
Qed.

Section Release.

Variable traverse_deps : State -> Val -> list DepId * option Exn.

(** The steps of [get]: the evaluation [get_body] from the state after
    the push, then the deep traversal; when that throws, [get] ends there,
    and otherwise the pop and the reconciliation follow and complete,
    whatever the evaluation did. *)
Lemma get_steps depth w st wr :
  st_watchers st !! w = Some wr ->
  exists rb st2 rt st3 a b c d,
    get_body depth w wr (pushTarget (Some w) st).2 = (rb, st2) /\
    get_traverse traverse_deps wr rb st2 = (rt, st3) /\
    tracked L_eval (pushTarget (Some w) st).2 st3 /\
    tracked L_eval st2 st3 /\
    st_watchers st3 !! w = Some (upd_deps a b c d wr) /\
    st_target st3 = Some w /\
    st_targetStack st3 = Some w :: st_targetStack st /\
    match rt with
    | Throw e => get traverse_deps depth w st = (Throw e, st3)
    | Ok _ =>
        exists st',
          get traverse_deps depth w st = (rb, st') /\
          (popTarget ;; cleanupDeps w) st3 = (Ok tt, st') /\
          st_targetStack st' = st_targetStack st /\
          st_target st' = default None (head (st_targetStack st)) /\
          st_watchers st' = <[w := upd_deps b [] d ∅ wr]> (st_watchers st3) /\
          st_trace st' = st_trace st3
    end.
Proof.
  intros Hw.
  pose proof (get_unfold traverse_deps depth w st wr Hw) as Hget.
  unfold try_finally in Hget.
  change (pushTarget (Some w) st).2
    with (set_target (Some w) (Some w :: st_targetStack st) st).
  set (st1 := set_target (Some w) (Some w :: st_targetStack st) st) in *.
  pose proof (reads_get_body depth w wr st1) as Htr.
  destruct (get_body depth w wr st1) as [rb st2] eqn:Ebody. simpl in Htr.
  cbv zeta in Hget. unfold bind at 1 in Hget.
  change (when (w_deep wr) _ st2) with (get_traverse traverse_deps wr rb st2) in Hget.
  pose proof (reads_get_traverse traverse_deps wr rb st2) as Htr23.
  destruct (get_traverse traverse_deps wr rb st2) as [rt st3] eqn:Etrav. simpl in Htr23.
  assert (tracked L_eval st1 st3) as Htr3 by (by etrans).
  pose proof (tracked_same_world _ _ _ Htr3) as (_ & Ht3 & Hst3 & _).
  destruct (tracked_buffers_only _ _ _ Htr3 w wr Hw) as (a & b & c & d & Hw3).
  exists rb, st2, rt, st3, a, b, c, d.
  split; [done|]. split; [done|]. split; [done|]. split; [done|]. split; [done|].
  split; [by rewrite Ht3|]. split; [by rewrite Hst3|].
  destruct rt as [[]|e]; [|done].
  unfold popTarget, bind at 1, modify in Hget. rewrite Hst3 in Hget. cbn [tail] in Hget.
  set (st4 := set_target _ _ st3) in Hget.
  destruct (cleanupDeps_ok w st4 _ Hw3) as (st5 & E5 & HW5 & Hsw5 & HT5).
  rewrite E5 in Hget.
  exists st5. split; [done|]. split.
  { unfold bind, popTarget, modify. rewrite Hst3. cbn [tail]. fold st4. by rewrite E5. }
  split; [destruct Hsw5 as (_ & _ & -> & _); done|].
  split; [destruct Hsw5 as (_ & -> & _); done|].
  split; [rewrite HW5; by destruct wr|]. done.
Qed.

Lemma get_buffers_only depth w : respects buffers_only (get traverse_deps depth w).
Proof.
  intros st. destruct (st_watchers st !! w) as [wr|] eqn:Hw.
  - destruct (get_steps depth w st wr Hw)
      as (rb & st2 & rt & st3 & a & b & c & d & _ & _ & Htr & _ & Hw3 & _ & _ & Hrt).
    apply tracked_buffers_only in Htr.
    assert (buffers_only st st3) as Hb.
    { intros w' wr' Hlk. by apply (Htr w' wr'). }
    destruct rt as [[]|e].
    + destruct Hrt as (st' & -> & _ & _ & _ & HW & _). simpl.
      intros w' wr' Hlk. destruct (Hb w' wr' Hlk) as (a' & b' & c' & d' & Heval).
      rewrite HW. destruct (decide (w = w')) as [<-|Hne].
      * rewrite lookup_insert_eq. assert (wr' = wr) as -> by congruence. eauto.
      * rewrite lookup_insert_ne by done. eauto.
    + by rewrite Hrt.
  - unfold get, bind, the_watcher. rewrite Hw. reflexivity.
Qed.


End Release.


(** The failing evaluation, run: the error reaches the handler, [get]
    returns [undefined], the slot is free again and the dep of [a] that was
    read before the throw is the one dependency. *)
Example failing_get_run :
  let '(r, st') := get Scenario.no_traverse 5 1 Failing.watched in
  r = Ok VUndef /\
  st_trace st' = [EvGetter 1; EvDepend 1 (Some 1);
                  EvHandleError (UserError 7) 0 "getter for watcher"] /\
  st_target st' = None /\ st_targetStack st' = [] /\
  (w_deps <$> st_watchers st' !! 1) = Some [1] /\
  subs_of st' 1 = [1].
Proof. vm_compute. repeat split. Qed.


(** * Running a watcher (C5) *)

Section Run.

Variable traverse_deps : State -> Val -> list DepId * option Exn.



End Run.


(** * Lazy watchers (C6) *)

Lemma try_finally_state {A} (body : M A) (fin : Res A -> M unit) st :
  (try_finally body fin st).2 = (fin (body st).1 (body st).2).2.
Proof.
  unfold try_finally. destruct (body st) as [r st1]. simpl.
  by destruct (fin r st1) as [[[]|e] st2].
Qed.

Section Lazy.

Variable traverse_deps : State -> Val -> list DepId * option Exn.

Variable parsePath : string -> option Expr.

Lemma get_finally_events w wr (r : Res Val) :
  respects (trace_extends E_get)
    (let value := match r with Ok v => v | Throw _ => VUndef end in
     when (w_deep wr) (traverse traverse_deps value) ;; popTarget ;; cleanupDeps w).
Proof.
  cbv zeta. apply (respects_bind _); [|intros _].
  { apply (respects_when _). eapply respects_weaken; [|by apply (reads_traverse _ L_eval)].
    intros ? ?; apply tracked_trace_extends. }
  apply (respects_bind _); [intros st; by apply trace_extends_same_trace|intros _].
  unfold cleanupDeps. respects_auto;
    try apply Dep_removeSub_trace;
    try (intros st; by apply trace_extends_same_trace).
Qed.

(** [get] starts by calling the evaluator. *)
Lemma get_calls_getter depth w st wr :
  st_watchers st !! w = Some wr ->
  exists rest,
    st_trace (get traverse_deps depth w st).2 = st_trace st ++ EvGetter w :: rest.
Proof.
  intros Hw. rewrite (get_unfold _ _ _ _ _ Hw). rewrite try_finally_state.
  set (st1 := set_target (Some w) (Some w :: st_targetStack st) st) in *.
  assert (exists n, st_trace (get_body depth w wr st1).2 = st_trace st ++ EvGetter w :: n)
    as [n Hn].
  { unfold get_body, try_catch. unfold bind at 1, log at 1, modify at 1.
    set (st1' := set_trace _ st1).
    pose proof (reads_eval_expr L_eval (fun _ _ => I) depth (w_getter wr) st1') as Hev.
    apply tracked_trace_extends in Hev as (n1 & HT1 & _).
    destruct (eval_expr depth (w_getter wr) st1') as [[v|e] s]; simpl in *.
    - exists n1. rewrite HT1. by rewrite <- app_assoc.
    - destruct (w_user wr); simpl.
      + exists (n1 ++ [EvHandleError e (w_vm wr) "getter for watcher"]).
        rewrite HT1. by rewrite <- !app_assoc.
      + exists n1. rewrite HT1. by rewrite <- app_assoc. }
  destruct (get_body depth w wr st1) as [r st2]. simpl in Hn.
  destruct (get_finally_events w wr r st2) as (n' & Hn' & _).
  exists (n ++ n'). cbn [fst snd]. cbv zeta in Hn'.
  etrans; [exact Hn'|]. rewrite Hn. by rewrite <- app_assoc.
Qed.

Lemma evaluate_unfold depth w st :
  evaluate traverse_deps depth w st =
    match get traverse_deps depth w st with
    | (Ok value, st1) =>
        (wr <- the_watcher w ;;
         put_watcher w (upd_value value wr) ;;
         wr <- the_watcher w ;;
         put_watcher w (upd_dirty false wr)) st1
    | (Throw e, st1) => (Throw e, st1)
    end.
Proof. reflexivity. Qed.

(** C6. Constructing a watcher with the [lazy] option does not call the
    evaluator: the cached value is left [undefined] and [dirty] is set.
    An [update()] then only sets [dirty] again.  [evaluate()] is what
    evaluates: it calls [get], which calls the evaluator, stores the value
    [get] returns as the cached value and clears [dirty]. *)
Theorem lazy_watcher_evaluates_on_demand depth vm v expOrFn cb opts isRenderWatcher st :
  st_vms st !! vm = Some v ->
  opt_lazy opts = true ->
  exists st' wr new,
    let w := S (st_watcherUid st) in
    (* construction *)
    Watcher_new traverse_deps parsePath depth vm expOrFn cb (Some opts)
      isRenderWatcher st = (Ok w, st') /\
    st_watchers st' !! w = Some wr /\
    wr = mkWatcher vm cb (opt_deep opts) (opt_user opts) true (opt_sync opts)
           (opt_before opts) true true [] [] ∅ ∅ (resolved_getter parsePath expOrFn) VUndef /\
    st_trace st' = st_trace st ++ new /\
    Forall (fun ev => is_getter ev = false) new /\
    (* a notification only marks it dirty *)
    update traverse_deps depth w st' =
      (Ok tt, (put_watcher w (upd_dirty true wr) (log (EvUpdate w) st').2).2) /\
    (* evaluate *)
    (exists rest,
       st_trace (evaluate traverse_deps depth w st').2
         = st_trace st' ++ EvGetter w :: rest) /\
    match get traverse_deps depth w st' with
    | (Ok value, st1) =>
        exists st2 wr2,
          evaluate traverse_deps depth w st' = (Ok tt, st2) /\
          st_watchers st2 !! w = Some wr2 /\
          w_value wr2 = value /\ w_dirty wr2 = false
    | (Throw e, st1) => evaluate traverse_deps depth w st' = (Throw e, st1)
    end.
Proof.
  intros Hvm Hlazy. cbv zeta.
  set (w := S (st_watcherUid st)).
  set (wr := mkWatcher vm cb (opt_deep opts) (opt_user opts) true (opt_sync opts)
           (opt_before opts) true true [] [] ∅ ∅ (resolved_getter parsePath expOrFn) VUndef).
  assert (exists st' new,
    Watcher_new traverse_deps parsePath depth vm expOrFn cb (Some opts)
      isRenderWatcher st = (Ok w, st') /\
    st_watchers st' !! w = Some wr /\
    st_trace st' = st_trace st ++ new /\
    Forall (fun ev => is_getter ev = false) new) as (st' & new & Enew & Hw & HT & Hnew).
  { unfold Watcher_new, bind, gets, the_vm, modify. simpl. rewrite Hvm. simpl.
    rewrite Hlazy.
    assert (resolved_getter parsePath expOrFn =
            match expOrFn with
            | OfFunction f => f
            | OfPath path => default (EVal VUndef) (parsePath path)
            end) as Hg by done.
    destruct expOrFn as [f|path]; simpl;
      [|destruct (parsePath path) as [f|] eqn:Hp; simpl;
        [|unfold dev_warn, bind, gets, when, log, modify; simpl;
          destruct (st_production st); simpl]];
      unfold the_watcher, put_watcher, modify, ret; simpl;
      rewrite lookup_insert_eq; simpl;
      [eexists _, []|eexists _, []|eexists _, []|eexists _, [_]];
      (split; [reflexivity|]); simpl;
      (split; [rewrite insert_insert_eq, lookup_insert_eq; unfold wr; by rewrite Hg|]);
      (split; [by rewrite ?app_nil_r|by repeat constructor]). }
  exists st', wr, new. split; [done|]. split; [done|]. split; [done|].
  split; [done|]. split; [done|]. split.
  { unfold update, bind, log, modify, the_watcher. simpl. rewrite Hw. done. }
  pose proof (get_calls_getter depth w st' wr Hw) as [rest Hrest].
  pose proof (get_buffers_only traverse_deps depth w st' w wr Hw) as (a & b & c & d & Hw1).
  pose proof (evaluate_unfold depth w st') as Hev.
  destruct (get traverse_deps depth w st') as [[value|e] st1]; simpl in *.
  - unfold bind, the_watcher, put_watcher, modify in Hev. simpl in Hev.
    rewrite Hw1 in Hev. simpl in Hev. rewrite lookup_insert_eq in Hev.
    rewrite Hev. simpl. split; [by exists rest|].
    eexists _, _. split; [reflexivity|]. simpl. rewrite lookup_insert_eq. done.
  - rewrite Hev. split; [by exists rest|done].
Qed.

End Lazy.

Lemma lazy_watcher_evaluates_on_demand_witness :
  st_vms Scenario.initial !! 0 = Some (mkVm [] None false) /\
  opt_lazy (mkOptions false true true false false) = true /\
  exists st' wr new,
    let w := S (st_watcherUid Scenario.initial) in
    Watcher_new Scenario.no_traverse Scenario.no_paths 5 0
      (OfFunction Failing.evaluator) Scenario.quiet_cb
      (Some (mkOptions false true true false false)) false Scenario.initial
      = (Ok w, st') /\
    st_watchers st' !! w = Some wr /\
    wr = mkWatcher 0 Scenario.quiet_cb false true true false false true true
           [] [] ∅ ∅ (resolved_getter Scenario.no_paths (OfFunction Failing.evaluator))
           VUndef /\
    st_trace st' = st_trace Scenario.initial ++ new /\
    Forall (fun ev => is_getter ev = false) new /\
    update Scenario.no_traverse 5 w st' =
      (Ok tt, (put_watcher w (upd_dirty true wr) (log (EvUpdate w) st').2).2) /\
    (exists rest,
       st_trace (evaluate Scenario.no_traverse 5 w st').2
         = st_trace st' ++ EvGetter w :: rest) /\
    match get Scenario.no_traverse 5 w st' with
    | (Ok value, st1) =>
        exists st2 wr2,
          evaluate Scenario.no_traverse 5 w st' = (Ok tt, st2) /\
          st_watchers st2 !! w = Some wr2 /\
          w_value wr2 = value /\ w_dirty wr2 = false
    | (Throw e, st1) => evaluate Scenario.no_traverse 5 w st' = (Throw e, st1)
    end.
Proof.
  split; [reflexivity|]. split; [reflexivity|].
  apply (lazy_watcher_evaluates_on_demand Scenario.no_traverse Scenario.no_paths 5 0
           (mkVm [] None false) (OfFunction Failing.evaluator) Scenario.quiet_cb
           (mkOptions false true true false false) false Scenario.initial);
    reflexivity.
Defined.

(** * Teardown (C9) *)

Global Instance keeps_inactive_preorder : PreOrder keeps_inactive.
Proof.
  split.
  - intros st w wr Hw. eauto.
  - intros x y z Hxy Hyz w wr Hw.
    destruct (Hxy w wr Hw) as (wr1 & Hy & H1).
    destruct (Hyz w wr1 Hy) as (wr2 & Hz & H2). eauto.
Qed.

Lemma buffers_only_keeps_inactive st st' : buffers_only st st' -> keeps_inactive st st'.
Proof.
  intros H w wr Hw. destruct (H w wr Hw) as (a & b & c & d & Hw'). eauto.
Qed.

Lemma keeps_inactive_same_watchers st st' :
  st_watchers st' = st_watchers st -> keeps_inactive st st'.
Proof. intros E. by apply buffers_only_keeps_inactive, buffers_only_same_watchers. Qed.

Lemma keeps_inactive_put w wr wr' st :
  st_watchers st !! w = Some wr ->
  (w_active wr = false -> w_active wr' = false) ->
  keeps_inactive st (put_watcher w wr' st).2.
Proof.
  intros Hw Hact w0 wr0 Hw0. simpl. destruct (decide (w = w0)) as [<-|Hne].
  - rewrite lookup_insert_eq. assert (wr0 = wr) as -> by congruence. eauto.
  - rewrite lookup_insert_ne by done. eauto.
Qed.

Lemma respects_with_watcher (R : relation State) `{!PreOrder R} {A} w (k : Watcher -> M A) :
  (forall wr st, st_watchers st !! w = Some wr -> R st (k wr st).2) ->
  respects R (wr <- the_watcher w ;; k wr).
Proof.
  intros H st. unfold bind, the_watcher.
  destruct (st_watchers st !! w) as [wr|] eqn:Hw; simpl; [by apply H|reflexivity].
Qed.

Section Teardown.

Variable traverse_deps : State -> Val -> list DepId * option Exn.

Lemma get_keeps_inactive depth w :
  respects keeps_inactive (get traverse_deps depth w).
Proof.
  eapply respects_weaken; [|apply get_buffers_only].
  apply buffers_only_keeps_inactive.
Qed.

Lemma call_cb_same_watchers w wr v o st :
  st_watchers (call_cb w wr v o st).2 = st_watchers st.
Proof. unfold call_cb, bind, log, modify. simpl. by destruct (w_cb wr v o). Qed.

Lemma run_keeps_inactive depth w : respects keeps_inactive (run traverse_deps depth w).
Proof.
  unfold run. apply (respects_bind _); [apply (respects_the_watcher _)|intros wr0].
  destruct (w_active wr0); [|apply (respects_ret _)].
  apply (respects_bind _); [apply get_keeps_inactive|intros value].
  apply (respects_with_watcher _). intros wr st Hw.
  destruct (_ || _); [|reflexivity]. cbv zeta.
  unfold bind at 1.
  pose proof (keeps_inactive_put w wr (upd_value value wr) st Hw (fun H => H)) as Hput.
  destruct (put_watcher w (upd_value value wr) st) as [[[]|e] st1] eqn:E;
    simpl in *; [|done].
  etrans; [exact Hput|]. apply keeps_inactive_same_watchers.
  destruct (w_user wr).
  - unfold try_catch.
    pose proof (call_cb_same_watchers w wr value (w_value wr) st1) as Hcb.
    destruct (call_cb w wr value (w_value wr) st1) as [[[]|e] st2]; simpl in *; done.
  - apply call_cb_same_watchers.
Qed.

Lemma update_keeps_inactive depth w :
  respects keeps_inactive (update traverse_deps depth w).
Proof.
  unfold update. apply (respects_bind _); [|intros _].
  { intros st. by apply keeps_inactive_same_watchers. }
  apply (respects_with_watcher _). intros wr st Hw.
  destruct (w_lazy wr); [by apply (keeps_inactive_put w wr)|].
  destruct (w_sync wr); [apply run_keeps_inactive|].
  by apply keeps_inactive_same_watchers.
Qed.

Lemma evaluate_keeps_inactive depth w :
  respects keeps_inactive (evaluate traverse_deps depth w).
Proof.
  unfold evaluate. apply (respects_bind _); [apply get_keeps_inactive|intros value].
  apply (respects_with_watcher _). intros wr st Hw. unfold bind at 1.
  pose proof (keeps_inactive_put w wr (upd_value value wr) st Hw (fun H => H)) as Hput.
  destruct (put_watcher w (upd_value value wr) st) as [[[]|e] st1] eqn:E;
    simpl in *; [|done].
  etrans; [exact Hput|].
  apply (respects_with_watcher _). intros wr1 st2 Hw1.
  by apply (keeps_inactive_put w wr1).
Qed.

Lemma removeSub_keeps_inactive d w : respects keeps_inactive (Dep_removeSub d w).
Proof.
  intros st. destruct (Dep_removeSub_spec d w st) as (st' & -> & _ & HW & _).
  by apply keeps_inactive_same_watchers.
Qed.

Lemma teardown_keeps_inactive w : respects keeps_inactive (teardown w).
Proof.
  unfold teardown. apply (respects_bind _); [apply (respects_the_watcher _)|intros wr0].
  destruct (w_active wr0); [|apply (respects_ret _)].
  apply (respects_bind _); [apply (respects_the_vm _)|intros vm].
  apply (respects_bind _); [|intros _].
  { apply (respects_when _). intros st. by apply keeps_inactive_same_watchers. }
  apply (respects_bind _); [|intros _].
  { apply (respects_for_each _). intros d. apply removeSub_keeps_inactive. }
  apply (respects_with_watcher _). intros wr st Hw.
  by apply (keeps_inactive_put w wr).
Qed.

Lemma do_op_keeps_inactive depth op : respects keeps_inactive (do_op traverse_deps depth op).
Proof.
  destruct op; simpl.
  - apply (respects_bind _); [apply get_keeps_inactive|intros; apply (respects_ret _)].
  - eapply respects_weaken; [|apply addDep_buffers_only].
    apply buffers_only_keeps_inactive.
  - intros st. destruct (st_watchers st !! w) as [wr|] eqn:Hw.
    + destruct (cleanupDeps_ok w st wr Hw) as (st' & -> & HW & _). simpl.
      intros w0 wr0 Hw0. rewrite HW. destruct (decide (w = w0)) as [<-|Hne].
      * rewrite lookup_insert_eq. assert (wr0 = wr) as -> by congruence. eauto.
      * rewrite lookup_insert_ne by done. eauto.
    + unfold cleanupDeps, bind, the_watcher. rewrite Hw. reflexivity.
  - apply update_keeps_inactive.
  - apply run_keeps_inactive.
  - apply evaluate_keeps_inactive.
  - unfold Watcher_depend. respects_auto.
    eapply respects_weaken; [|apply (reads_depend (fun _ => True))].
    intros ? ? ?. by eapply buffers_only_keeps_inactive, tracked_buffers_only.
  - apply teardown_keeps_inactive.
  - unfold Dep_notify. respects_auto; try apply update_keeps_inactive.
    intros st. by apply keeps_inactive_same_watchers.
Qed.

(** C9. [teardown] on an active watcher removes it from the subscribers of
    every dep it holds, removes it from the watcher list of its owner
    unless the owner is being destroyed, and clears [active].  A second
    [teardown] changes nothing and completes, and no sequence of watcher or
    dep operations makes the watcher active again. *)
Theorem teardown_is_idempotent w st wr vm :
  st_watchers st !! w = Some wr ->
  w_active wr = true ->
  st_vms st !! w_vm wr = Some vm ->
  DepInv st ->
  exists st1,
    teardown w st = (Ok tt, st1) /\
    st_watchers st1 = <[w := upd_active false wr]> (st_watchers st) /\
    (forall d, d ∈ w_deps wr -> w ∉ subs_of st1 d) /\
    (forall d w', w' <> w -> w' ∈ subs_of st1 d <-> w' ∈ subs_of st d) /\
    st_vms st1 =
      (if vm_isBeingDestroyed vm then st_vms st
       else <[w_vm wr := mkVm (remove w (vm_watchers vm)) (vm_watcher vm)
                           (vm_isBeingDestroyed vm)]> (st_vms st)) /\
    st_trace st1 = st_trace st /\
    teardown w st1 = (Ok tt, st1) /\
    (forall depth (ops : list Op),
       exists wr',
         st_watchers (for_each (do_op traverse_deps depth) ops st1).2 !! w = Some wr' /\
         w_active wr' = false).
Proof.
  intros Hw Hact Hvm Hinv.
  unfold teardown at 1, bind at 1, the_watcher at 1. rewrite Hw. cbv beta iota.
  rewrite Hact. unfold bind at 1, the_vm. rewrite Hvm. cbv beta iota.
  unfold bind at 1.
  match goal with |- context [when ?b ?m st] => set (st0 := (when b m st).2) end.
  assert ((when (negb (vm_isBeingDestroyed vm))
             (modify (set_vms <[w_vm wr :=
                mkVm (remove w (vm_watchers vm)) (vm_watcher vm)
                  (vm_isBeingDestroyed vm)]>)) st) = (Ok tt, st0)) as E0.
  { subst st0. by destruct (vm_isBeingDestroyed vm). }
  rewrite E0.
  assert (st_watchers st0 = st_watchers st /\ st_subs st0 = st_subs st /\
          st_trace st0 = st_trace st /\
          st_vms st0 = (if vm_isBeingDestroyed vm then st_vms st
                        else <[w_vm wr := mkVm (remove w (vm_watchers vm)) (vm_watcher vm)
                               (vm_isBeingDestroyed vm)]> (st_vms st)))
    as (HW0 & HS0 & HT0 & HV0).
  { subst st0. by destruct (vm_isBeingDestroyed vm). }
  assert (DepInv st0) as Hinv0.
  { intros d. unfold subs_of. rewrite HS0. apply Hinv. }
  destruct (for_each_removeSub (fun _ => false) w (reverse (w_deps wr)) st0 Hinv0)
    as (st5 & E5 & Hsw5 & HW5 & HT5 & Hinv5 & HS5).
  unfold bind at 1. rewrite E5.
  unfold bind at 1, the_watcher. rewrite HW5, HW0, Hw. cbv beta iota.
  unfold put_watcher, modify.
  set (st1 := set_watchers _ st5).
  assert (forall d w', w' ∈ subs_of st1 d <->
            w' ∈ subs_of st d /\ ~ (w' = w /\ d ∈ w_deps wr)) as HS1.
  { intros d w'. change (subs_of st1 d) with (subs_of st5 d). rewrite HS5.
    unfold subs_of. rewrite HS0. rewrite elem_of_reverse. naive_solver. }
  assert (st_watchers st1 !! w = Some (upd_active false wr)) as Hw1.
  { simpl. rewrite HW5, HW0. by rewrite lookup_insert_eq. }
  exists st1. split; [done|].
  split; [simpl; by rewrite HW5, HW0|].
  split; [intros d Hd Hin; apply HS1 in Hin as [_ Hin]; by apply Hin|].
  split; [intros d w' Hne; rewrite HS1; naive_solver|].
  split.
  { change (st_vms st1) with (st_vms st5).
    destruct Hsw5 as (_ & _ & _ & _ & -> & _). done. }
  split; [simpl; by rewrite HT5|].
  split.
  { unfold teardown, bind, the_watcher. rewrite Hw1. done. }
  intros depth ops.
  pose proof (respects_for_each keeps_inactive (do_op traverse_deps depth) ops
                (do_op_keeps_inactive depth) st1 w _ Hw1) as (wr' & Hw' & Hact').
  exists wr'. split; [done|]. by apply Hact'.
Qed.

End Teardown.

(** The watcher of the running example, before the flag is flipped. *)
Lemma teardown_is_idempotent_witness :
  st_watchers Scenario.watched !! 1 = Some Scenario.watched_watcher /\
  w_active Scenario.watched_watcher = true /\
  st_vms Scenario.watched !! w_vm Scenario.watched_watcher = Some (mkVm [1] None false) /\
  DepInv Scenario.watched /\
  exists st1,
    teardown 1 Scenario.watched = (Ok tt, st1) /\
    st_watchers st1 =
      <[1 := upd_active false Scenario.watched_watcher]> (st_watchers Scenario.watched) /\
    (forall d, d ∈ w_deps Scenario.watched_watcher -> 1 ∉ subs_of st1 d) /\
    (forall d w', w' <> 1 -> w' ∈ subs_of st1 d <-> w' ∈ subs_of Scenario.watched d) /\
    st_vms st1 =
      (if vm_isBeingDestroyed (mkVm [1] None false) then st_vms Scenario.watched
       else <[w_vm Scenario.watched_watcher :=
                mkVm (remove 1 (vm_watchers (mkVm [1] None false)))
                  (vm_watcher (mkVm [1] None false))
                  (vm_isBeingDestroyed (mkVm [1] None false))]>
              (st_vms Scenario.watched)) /\
    st_trace st1 = st_trace Scenario.watched /\
    teardown 1 st1 = (Ok tt, st1) /\
    (forall depth (ops : list Op),
       exists wr',
         st_watchers (for_each (do_op Scenario.no_traverse depth) ops st1).2 !! 1
           = Some wr' /\
         w_active wr' = false).
Proof.
  assert (DepInv Scenario.watched) as H.
  { apply DepInv_intro. refine (bool_decide_unpack _ _). vm_compute. exact I. }
  split; [reflexivity|]. split; [reflexivity|]. split; [reflexivity|]. split; [exact H|].
  apply (teardown_is_idempotent Scenario.no_traverse 1 Scenario.watched
           Scenario.watched_watcher (mkVm [1] None false)); try reflexivity.
  exact H.
Defined.

(** * Writes that change nothing (C4) *)

Lemma reads_current_value L depth c :
  (forall o k, L (EvUserGet o k)) -> respects (tracked L) (current_value depth c).
Proof.
  intros HL. unfold current_value. destruct (c_getter c).
  - by apply reads_call_getter.
  - apply (respects_ret _).
Qed.

Section SameValue.

Variable traverse_deps : State -> Val -> list DepId * option Exn.

Lemma reactiveSetter_unfold depth d newVal st c :
  st_closures st !! d = Some c ->
  reactiveSetter traverse_deps depth d newVal st =
    match current_value depth c st with
    | (Ok value, st1) =>
        if strict_eq newVal value || (self_neq newVal && self_neq value)
        then (Ok tt, st1)
        else
          (prod <- gets st_production ;;
           when (negb prod && c_customSetter c)
             (log (EvCustomSetter (c_obj c) (c_key c))) ;;
           if bool_decide (is_Some (c_getter c)) &&
              negb (bool_decide (is_Some (c_setter c)))
           then ret tt
           else
             match c_setter c with
             | Some s => call_setter traverse_deps depth (c_obj c) (c_key c) s newVal
             | None => modify (set_closures (<[d := upd_c_val newVal c]>))
             end ;;
             childOb <- (if c_shallow c then ret None else observe depth newVal false) ;;
             c' <- the_closure d ;;
             modify (set_closures (<[d := upd_c_childOb childOb c']>)) ;;
             Dep_notify traverse_deps depth d) st1
    | (Throw e, st1) => (Throw e, st1)
    end.
Proof.
  intros Hc. unfold reactiveSetter, reactiveSetter_with.
  unfold bind at 1, the_closure at 1. rewrite Hc. cbv beta iota.
  unfold bind at 1. fold (current_value depth c).
  destruct (current_value depth c st) as [[value|e] st1]; [|done].
  by destruct (strict_eq newVal value || (self_neq newVal && self_neq value)).
Qed.

(** C4. A write to a reactive property first reads the current value
    through the pre-existing getter or from the closure; that read stores
    nothing and notifies nobody.  When the new value is [===] to the
    current one, or both are [NaN], the write ends there: nothing is
    stored, [childOb] is not recomputed and [dep.notify()] is not called.
    When the property has a pre-existing getter and no setter, every write
    ends without a store: heap and closures are as before, and nothing is
    notified. *)
Theorem reactiveSetter_ignores_unchanged_value depth d newVal st c :
  st_closures st !! d = Some c ->
  exists rv st1 new,
    current_value depth c st = (rv, st1) /\
    same_world st st1 /\
    st_trace st1 = st_trace st ++ new /\
    Forall (fun ev => L_read ev \/ is_depend ev = true) new /\
    (c_getter c = None -> rv = Ok (c_val c) /\ st1 = st) /\
    (forall value,
       rv = Ok value ->
       strict_eq newVal value = true \/
         (newVal = VNum NaN /\ value = VNum NaN) ->
       reactiveSetter traverse_deps depth d newVal st = (Ok tt, st1)) /\
    (forall value,
       rv = Ok value ->
       is_Some (c_getter c) -> c_setter c = None ->
       exists st2 custom,
         reactiveSetter traverse_deps depth d newVal st = (Ok tt, st2) /\
         same_world st st2 /\
         st_subs st2 = st_subs st1 /\ st_watchers st2 = st_watchers st1 /\
         st_trace st2 = st_trace st1 ++ custom /\
         (custom = [] \/ custom = [EvCustomSetter (c_obj c) (c_key c)])).
Proof.
  intros Hc.
  pose proof (reactiveSetter_unfold depth d newVal st c Hc) as Hset.
  pose proof (reads_current_value L_read depth c (fun _ _ => I) st) as Htr.
  destruct (current_value depth c st) as [rv st1] eqn:Ecur. simpl in Htr.
  pose proof (tracked_same_world _ _ _ Htr) as Hsw.
  pose proof (tracked_trace_extends _ _ _ Htr) as (new & HT & Hnew).
  exists rv, st1, new. split; [done|]. split; [done|]. split; [done|]. split; [done|].
  split.
  { intros Hg. unfold current_value in Ecur. rewrite Hg in Ecur.
    unfold ret in Ecur. by inversion Ecur. }
  split.
  - intros value -> Hsame. rewrite Hset.
    assert (strict_eq newVal value || (self_neq newVal && self_neq value) = true) as ->; [|done].
    destruct Hsame as [->|[-> ->]]; [done|]. by rewrite orb_true_r.
  - intros value -> Hg Hs. rewrite Hset.
    destruct (strict_eq newVal value || (self_neq newVal && self_neq value)).
    { exists st1, []. split; [done|]. split; [done|]. split; [done|]. split; [done|].
      split; [by rewrite app_nil_r|by left]. }
    rewrite Hs. rewrite (bool_decide_eq_true_2 _ Hg).
    assert (bool_decide (is_Some (@None Setter)) = false) as ->.
    { apply bool_decide_eq_false_2. by intros [? ?]. }
    unfold bind, gets, when, log, modify. simpl.
    destruct (negb (st_production st1) && c_customSetter c); simpl.
    + eexists _, _. split; [reflexivity|]. split; [etrans; [exact Hsw|repeat split]|].
      split; [done|]. split; [done|]. split; [done|by right].
    + eexists _, []. split; [reflexivity|]. split; [done|].
      split; [done|]. split; [done|]. split; [by rewrite app_nil_r|by left].
Qed.

End SameValue.

Lemma reactiveSetter_ignores_unchanged_value_witness :
  st_closures Accessors.observed !! 2 = Some Accessors.n_closure /\
  exists rv st1 new,
    current_value 5 Accessors.n_closure Accessors.observed = (rv, st1) /\
    same_world Accessors.observed st1 /\
    st_trace st1 = st_trace Accessors.observed ++ new /\
    Forall (fun ev => L_read ev \/ is_depend ev = true) new /\
    (c_getter Accessors.n_closure = None ->
       rv = Ok (c_val Accessors.n_closure) /\ st1 = Accessors.observed) /\
    (forall value,
       rv = Ok value ->
       strict_eq (VNum NaN) value = true \/
         (VNum NaN = VNum NaN /\ value = VNum NaN) ->
       reactiveSetter Scenario.no_traverse 5 2 (VNum NaN) Accessors.observed
         = (Ok tt, st1)) /\
    (forall value,
       rv = Ok value ->
       is_Some (c_getter Accessors.n_closure) -> c_setter Accessors.n_closure = None ->
       exists st2 custom,
         reactiveSetter Scenario.no_traverse 5 2 (VNum NaN) Accessors.observed
           = (Ok tt, st2) /\
         same_world Accessors.observed st2 /\
         st_subs st2 = st_subs st1 /\ st_watchers st2 = st_watchers st1 /\
         st_trace st2 = st_trace st1 ++ custom /\
         (custom = [] \/
          custom = [EvCustomSetter (c_obj Accessors.n_closure) (c_key Accessors.n_closure)])).
Proof.
  split; [reflexivity|].
  apply (reactiveSetter_ignores_unchanged_value Scenario.no_traverse 5 2 (VNum NaN)
           Accessors.observed Accessors.n_closure).
  reflexivity.
Defined.

(** Writing [NaN] over [NaN], and writing to the read-only accessor, run:
    the state after [obj.n = NaN] is the state before, and [obj.ro = 9]
    only calls the pre-existing getter. *)
Example same_value_writes_run :
  assign Scenario.no_traverse Scenario.lengths 5 0 (KName "n") (VNum NaN) Accessors.observed
    = (Ok tt, Accessors.observed) /\
  (let '(r, st') := assign Scenario.no_traverse Scenario.lengths 5 0 (KName "ro") (VNum (Fin 9))
                      Accessors.observed in
   r = Ok tt /\
   st_trace st' = st_trace Accessors.observed ++ [EvUserGet 0 (KName "ro")] /\
   st_objs st' = st_objs Accessors.observed /\
   st_closures st' = st_closures Accessors.observed /\
   (read 5 0 (KName "ro") st').1 = Ok (VNum (Fin 5))).
Proof. split; [vm_compute; reflexivity|]. vm_compute. repeat split. Qed.

(** * Installing over a getter without setter (C10) *)

Lemma alist_lookup_set_eq {V} k (v : V) l : alist_lookup k (alist_set k v l) = Some v.
Proof.
  induction l as [|[k' v'] l IH]; simpl.
  - by rewrite decide_True.
  - destruct (decide (k' = k)) as [->|Hne]; simpl.
    + by rewrite decide_True.
    + by rewrite decide_False.
Qed.

Lemma alist_lookup_set_ne {V} k k' (v : V) l :
  k <> k' -> alist_lookup k' (alist_set k v l) = alist_lookup k' l.
Proof.
  intros Hne. induction l as [|[k0 v0] l IH]; simpl.
  - by rewrite decide_False.
  - destruct (decide (k0 = k)) as [->|Hne0]; simpl.
    + by rewrite !decide_False.
    + destruct (decide (k0 = k')); [done|apply IH].
Qed.

Lemma define_accessor_ok obj key d st o :
  st_objs st !! obj = Some o ->
  not_array_index o key ->
  match own_desc o key with
  | Some p => p_configurable p = true
  | None => o_extensible o = true
  end ->
  define_accessor obj key d st =
    (Ok tt, set_objs <[obj := set_o_props (alist_set key (reactive_prop d) (o_props o)) o]> st).
Proof.
  intros Ho Hidx Hok. unfold define_accessor, bind, the_obj. rewrite Ho.
  unfold not_array_index in Hidx.
  destruct (own_desc o key) as [p|]; rewrite Hok;
    destruct (o_class o), key; done.
Qed.

(** C10. [defineReactive(obj, key)], called with exactly two arguments on a
    configurable property that has a getter and no setter, does not call
    that getter: the captured [val] stays [undefined], no child [Observer]
    is created, and the property becomes a reactive accessor.  A read of it
    afterwards returns what the getter returns and registers the dep of the
    property alone. *)
Theorem defineReactive_does_not_read_through_lone_getter
    depth obj key customSetter shallow st o p g :
  st_objs st !! obj = Some o ->
  own_desc o key = Some p ->
  p_kind p = PAccessor (Some g) None ->
  p_configurable p = true ->
  exists st' o',
    let d := st_depUid st in
    defineReactive depth obj key None customSetter shallow st = (Ok tt, st') /\
    st_closures st' =
      <[d := mkClosure obj key VUndef None (Some g) None shallow customSetter]>
        (st_closures st) /\
    st_trace st' = st_trace st /\
    st_observers st' = st_observers st /\ st_obUid st' = st_obUid st /\
    st_objs st' = <[obj := o']> (st_objs st) /\
    own_desc o' key =
      Some (mkProp (PAccessor (Some (GReactive d)) (Some (SReactive d))) true true) /\
    forall n,
      read (S n) obj key st' =
        (value <- call_getter n obj key g ;;
         tgt <- gets st_target ;;
         match tgt with Some _ => Dep_depend d | None => ret tt end ;;
         ret value) st'.
Proof.
  intros Ho Hdesc Hkind Hconf.
  assert (own_desc o key = alist_lookup key (o_props o) /\
          (forall o2, o_class o2 = o_class o ->
             own_desc o2 key = alist_lookup key (o_props o2)) /\
          match o_class o, key with CArray, KIdx _ => False | _, _ => True end)
    as (Hown & Hown' & Hnoidx).
  { unfold own_desc in *. destruct (o_class o) eqn:Hcl; try done.
    - split; [done|]. split; [|done]. intros o2 ->. done.
    - destruct key as [n|s].
      + destruct (o_elems o !! n) as [[v|]|]; simplify_eq; done.
      + destruct (decide (s = "length")) as [->|Hne].
        * simplify_eq; done.
        * assert (forall o2 : Obj,
                    match s with
                    | "length" =>
                        Some (mkProp (PData (VNum (Fin (Z.of_nat (length (o_elems o2))))) true)
                                false false)
                    | _ => alist_lookup (KName s) (o_props o2)
                    end = alist_lookup (KName s) (o_props o2)) as Hs.
          { intros o2. clear -Hne.
            repeat (destruct s as [|[[] [] [] [] [] [] [] []] s]; try done). }
          split; [apply Hs|]. split; [|done]. intros o2 ->. apply Hs.
    - split; [done|]. split; [|done]. intros o2 ->. done. }
  destruct p as [kind enum conf]. simpl in Hkind, Hconf. subst kind conf.
  set (d := st_depUid st).
  set (c := mkClosure obj key VUndef None (Some g) None shallow customSetter).
  set (acc := mkProp (PAccessor (Some (GReactive d)) (Some (SReactive d))) true true).
  set (o' := set_o_props (alist_set key acc (o_props o)) o).
  assert (defineReactive depth obj key None customSetter shallow st =
          (Ok tt, set_objs <[obj := o']>
                    (set_closures <[d := c]>
                       (set_depUid (S d) (set_subs <[d := []]> st))))) as Edef.
  { unfold defineReactive, defineReactive_with.
    unfold bind at 1, Dep_new. cbv beta iota zeta. fold d.
    unfold bind at 1, the_obj. simpl. rewrite Ho. cbv beta iota.
    rewrite Hdesc. cbv beta iota. simpl. unfold bind at 1, ret at 1. cbv beta iota.
    assert ((if shallow then ret None else observe depth VUndef false)
            = (ret None : M (option ObId))) as ->.
    { destruct shallow; [done|]. by destruct depth. }
    unfold bind at 1, ret at 1. cbv beta iota.
    unfold bind at 1, modify at 1. cbv beta iota.
    erewrite define_accessor_ok; [reflexivity|exact Ho|exact Hnoidx|by rewrite Hdesc]. }
  exists (set_objs <[obj := o']>
            (set_closures <[d := c]> (set_depUid (S d) (set_subs <[d := []]> st)))), o'.
  cbv zeta. split; [exact Edef|]. split; [done|]. split; [done|]. split; [done|].
  split; [done|]. split; [done|]. split.
  { rewrite Hown' by done. simpl. apply alist_lookup_set_eq. }
  intros n. unfold read, bind at 1, the_obj. simpl. rewrite lookup_insert_eq. simpl.
  rewrite Hown' by done. simpl. rewrite alist_lookup_set_eq. simpl.
  unfold reactiveGetter_with, bind at 1, the_closure. simpl. rewrite lookup_insert_eq.
  simpl. unfold bind. 
  destruct (call_getter n obj key g _) as [[v|e] s1]; [|done].
  unfold gets. destruct (st_target s1); [|done].
  by destruct (Dep_depend d s1) as [[[]|e] s2].
Qed.

Lemma defineReactive_does_not_read_through_lone_getter_witness :
  st_objs Accessors.initial !! 0 = Some Accessors.object /\
  own_desc Accessors.object (KName "ro")
    = Some (mkProp (PAccessor (Some (GSlot "x")) None) true true) /\
  p_kind (mkProp (PAccessor (Some (GSlot "x")) None) true true)
    = PAccessor (Some (GSlot "x")) None /\
  p_configurable (mkProp (PAccessor (Some (GSlot "x")) None) true true) = true /\
  exists st' o',
    let d := st_depUid Accessors.initial in
    defineReactive 5 0 (KName "ro") None false false Accessors.initial = (Ok tt, st') /\
    st_closures st' =
      <[d := mkClosure 0 (KName "ro") VUndef None (Some (GSlot "x")) None false false]>
        (st_closures Accessors.initial) /\
    st_trace st' = st_trace Accessors.initial /\
    st_observers st' = st_observers Accessors.initial /\
    st_obUid st' = st_obUid Accessors.initial /\
    st_objs st' = <[0 := o']> (st_objs Accessors.initial) /\
    own_desc o' (KName "ro") =
      Some (mkProp (PAccessor (Some (GReactive d)) (Some (SReactive d))) true true) /\
    forall n,
      read (S n) 0 (KName "ro") st' =
        (value <- call_getter n 0 (KName "ro") (GSlot "x") ;;
         tgt <- gets st_target ;;
         match tgt with Some _ => Dep_depend d | None => ret tt end ;;
         ret value) st'.
Proof.
  split; [reflexivity|]. split; [reflexivity|]. split; [reflexivity|].
  split; [reflexivity|].
  apply (defineReactive_does_not_read_through_lone_getter 5 0 (KName "ro") false false
           Accessors.initial Accessors.object
           (mkProp (PAccessor (Some (GSlot "x")) None) true true) (GSlot "x"));
    reflexivity.
Defined.

(** * Observing twice (C3) *)

Global Instance keeps_markers_preorder : PreOrder keeps_markers.
Proof.
  split.
  - intros st. split; [|done]. intros r o Ho. eauto.
  - intros x y z [Hxy Hxy'] [Hyz Hyz']. split; [|by auto].
    intros r o Ho. destruct (Hxy r o Ho) as (o1 & Ho1 & Hv1 & Hm1).
    destruct (Hyz r o1 Ho1) as (o2 & Ho2 & Hv2 & Hm2).
    exists o2. split; [done|]. split; [congruence|auto].
Qed.

Lemma keeps_markers_same st st' :
  st_objs st' = st_objs st -> st_observers st' = st_observers st ->
  keeps_markers st st'.
Proof.
  intros E1 E2. split.
  - intros r o Ho. rewrite E1. eauto.
  - intros ob. by rewrite E2.
Qed.

Lemma same_world_keeps_markers st st' : same_world st st' -> keeps_markers st st'.
Proof.
  intros (_ & _ & _ & _ & _ & E1 & E2 & _). by apply keeps_markers_same.
Qed.

Lemma keeps_markers_put_obj r o o' st :
  st_objs st !! r = Some o ->
  o_isVNode o' = o_isVNode o ->
  (forall ob, o_ob o = Some ob -> o_ob o' = Some ob) ->
  keeps_markers st (put_obj r o' st).2.
Proof.
  intros Ho Hv Hm. split; [|done]. intros r0 o0 Ho0. simpl.
  destruct (decide (r = r0)) as [<-|Hne].
  - rewrite lookup_insert_eq. assert (o0 = o) as -> by congruence. eauto.
  - rewrite lookup_insert_ne by done. eauto.
Qed.

Lemma respects_with_obj (R : relation State) `{!PreOrder R} {A} r (k : Obj -> M A) :
  (forall o st, st_objs st !! r = Some o -> R st (k o st).2) ->
  respects R (o <- the_obj r ;; k o).
Proof.
  intros H st. unfold bind, the_obj.
  destruct (st_objs st !! r) as [o|] eqn:Ho; simpl; [by apply H|reflexivity].
Qed.

Lemma Dep_new_keeps_markers : respects keeps_markers Dep_new.
Proof. intros st. by apply keeps_markers_same. Qed.

Lemma read_keeps_markers depth o k : respects keeps_markers (read depth o k).
Proof.
  eapply respects_weaken; [|apply (reads_read (fun _ => True)); done].
  intros a b H. by apply same_world_keeps_markers, (tracked_same_world _ _ _ H).
Qed.

Lemma define_accessor_keeps_markers obj key d :
  respects keeps_markers (define_accessor obj key d).
Proof.
  unfold define_accessor. apply (respects_with_obj _). intros o st Ho.
  destruct (o_class o), key; try reflexivity;
    destruct (own_desc o _) as [p|]; try destruct (p_configurable p);
    try destruct (o_extensible o); try reflexivity;
    by apply (keeps_markers_put_obj _ o).
Qed.

Lemma defineReactive_with_keeps_markers observe_ depth obj key val cs sh :
  (forall v, respects keeps_markers (observe_ v)) ->
  respects keeps_markers (defineReactive_with observe_ depth obj key val cs sh).
Proof.
  intros Hobs. unfold defineReactive_with.
  apply (respects_bind _); [apply Dep_new_keeps_markers|intros dep].
  apply (respects_bind _); [apply (respects_the_obj _)|intros o].
  assert (respects keeps_markers
    (val0 <- (if (negb (bool_decide (is_Some (desc_get (own_desc o key))))
                  || bool_decide (is_Some (desc_set (own_desc o key))))
                 && bool_decide (val = None)
              then read depth obj key else ret (default VUndef val)) ;;
     childOb <- (if sh then ret None else observe_ val0) ;;
     modify (set_closures
       <[dep := mkClosure obj key val0 childOb (desc_get (own_desc o key))
                  (desc_set (own_desc o key)) sh cs]>) ;;
     define_accessor obj key dep)) as Hrest.
  { apply (respects_bind _); [|intros val0].
    { destruct (_ && _); [apply read_keeps_markers|apply (respects_ret _)]. }
    apply (respects_bind _); [|intros childOb].
    { destruct sh; [apply (respects_ret _)|apply Hobs]. }
    apply (respects_bind _); [|intros _; apply define_accessor_keeps_markers].
    intros st. by apply keeps_markers_same. }
  destruct (own_desc o key) as [[kind enum []]|]; try exact Hrest.
  apply (respects_ret _).
Qed.

Lemma walk_with_keeps_markers observe_ depth obj :
  (forall v, respects keeps_markers (observe_ v)) ->
  respects keeps_markers (walk_with observe_ depth obj).
Proof.
  intros Hobs. unfold walk_with. respects_auto.
  by apply defineReactive_with_keeps_markers.
Qed.

Lemma observeArray_with_keeps_markers observe_ items :
  (forall v, respects keeps_markers (observe_ v)) ->
  respects keeps_markers (observeArray_with observe_ items).
Proof. intros Hobs. unfold observeArray_with. respects_auto. Qed.

Lemma Observer_new_with_unfold observe_ depth value st o :
  st_objs st !! value = Some o ->
  Observer_new_with observe_ depth value st =
    let this := st_obUid st in
    let st3 :=
      set_objs <[value := set_o_ob (Some this) o]>
        (set_observers <[this := mkObserver value (st_depUid st) 0]> (S this)
           (set_depUid (S (st_depUid st)) (set_subs <[st_depUid st := []]> st))) in
    match (if bool_decide (o_class o = CArray)
           then augment value ;; observeArray_with observe_ (o_elems o)
           else walk_with observe_ depth value) st3 with
    | (Ok _, st4) => (Ok this, st4)
    | (Throw e, st4) => (Throw e, st4)
    end.
Proof.
  intros Ho. unfold Observer_new_with.
  unfold bind at 1, Dep_new. cbv beta iota zeta.
  unfold bind at 1, gets. cbv beta iota.
  unfold bind at 1, modify at 1. cbv beta iota.
  unfold bind at 1, def_ob, bind at 1, the_obj at 1. simpl st_objs. rewrite Ho.
  cbv beta iota. unfold put_obj, modify. cbv beta iota.
  unfold bind at 1, the_obj at 1. simpl st_objs. rewrite lookup_insert_eq.
  cbv beta iota. unfold bind at 1. simpl o_class. simpl o_elems. simpl st_obUid.
  reflexivity.
Qed.

(** [new Observer(value)] on an object that carries no marker yet: the
    object is marked with the new observer, which is in the store. *)
Lemma Observer_new_with_marks observe_ depth value st o :
  (forall v, respects keeps_markers (observe_ v)) ->
  st_objs st !! value = Some o -> o_ob o = None ->
  let st' := (Observer_new_with observe_ depth value st).2 in
  keeps_markers st st' /\
  (exists o', st_objs st' !! value = Some o' /\ o_ob o' = Some (st_obUid st)) /\
  is_Some (st_observers st' !! st_obUid st) /\
  forall ob, (Observer_new_with observe_ depth value st).1 = Ok ob -> ob = st_obUid st.
Proof.
  intros Hobs Ho Hnone. cbv zeta.
  rewrite (Observer_new_with_unfold _ _ _ _ _ Ho). cbv zeta.
  set (this := st_obUid st).
  set (st3 := set_objs _ _).
  assert (st_objs st3 !! value = Some (set_o_ob (Some this) o)) as Ho3.
  { subst st3. simpl. by rewrite lookup_insert_eq. }
  assert (keeps_markers st st3) as H03.
  { split.
    - intros r o0 Ho0. subst st3. simpl. destruct (decide (value = r)) as [<-|Hne].
      + rewrite lookup_insert_eq. assert (o0 = o) as -> by congruence.
        eexists. split; [done|]. split; [done|].
        intros ob Hob. congruence.
      + rewrite lookup_insert_ne by done. eauto.
    - intros ob [x Hx]. subst st3. simpl. destruct (decide (this = ob)) as [<-|Hne].
      + rewrite lookup_insert_eq. eauto.
      + rewrite lookup_insert_ne by done. eauto. }
  set (body := if bool_decide (o_class o = CArray)
               then augment value ;; observeArray_with observe_ (o_elems o)
               else walk_with observe_ depth value).
  assert (respects keeps_markers body) as Hbody.
  { subst body. destruct (bool_decide _).
    - apply (respects_bind _); [|intros _; by apply observeArray_with_keeps_markers].
      unfold augment. apply (respects_with_obj _). intros o0 s Ho0.
      by apply (keeps_markers_put_obj _ o0).
    - by apply walk_with_keeps_markers. }
  specialize (Hbody st3).
  assert (keeps_markers st (body st3).2 /\
          (exists o', st_objs (body st3).2 !! value = Some o' /\ o_ob o' = Some this) /\
          is_Some (st_observers (body st3).2 !! this)) as (H1 & H2 & H3).
  { split; [by etrans|]. split.
    - destruct Hbody as [Hb _]. destruct (Hb value _ Ho3) as (o4 & Ho4 & _ & Hm4).
      exists o4. split; [done|]. by apply Hm4.
    - destruct Hbody as [_ Hb]. apply Hb. subst st3. simpl.
      rewrite lookup_insert_eq. eauto. }
  destruct (body st3) as [[[]|e] st4]; simpl in *.
  - split; [done|]. split; [done|]. split; [done|]. intros ob H. by inversion H.
  - split; [done|]. split; [done|]. split; [done|]. intros ob H. by inversion H.
Qed.

Lemma observe_keeps_markers depth value asRootData :
  respects keeps_markers (observe depth value asRootData).
Proof.
  revert value asRootData. induction depth as [|depth IH]; intros value asRootData.
  - destruct value; try apply (respects_ret _). simpl.
    apply (respects_with_obj _). intros o st Ho.
    destruct (o_isVNode o); [reflexivity|].
    assert (forall i, respects keeps_markers
              (match Some i with
               | Some i =>
                   when asRootData
                     (obr <- the_observer i ;;
                      modify (fun st => set_observers
                        <[i := mkObserver (ob_value obr) (ob_dep obr) (S (ob_vmCount obr))]>
                        (st_obUid st) st))
               | None => ret tt
               end ;; ret (Some i))) as Hcount.
    { intros i. apply (respects_bind _); [|intros; apply (respects_ret _)].
      apply (respects_when _). apply (respects_bind _); [apply (respects_the_observer _)|].
      intros obr s. split; [intros; eauto|]. intros ob [x Hx]. simpl.
      destruct (decide (i = ob)) as [<-|Hne].
      - rewrite lookup_insert_eq. eauto.
      - rewrite lookup_insert_ne by done. eauto. }
    destruct (o_ob o) as [ob|].
    + unfold bind at 1, ret at 1. apply Hcount.
    + unfold bind at 1, gets at 1. unfold bind at 1. cbv beta iota.
      destruct (_ && _); reflexivity.
  - destruct value; try apply (respects_ret _). simpl.
    apply (respects_with_obj _). intros o st Ho.
    destruct (o_isVNode o); [reflexivity|].
    assert (forall i, respects keeps_markers
              (match Some i with
               | Some i =>
                   when asRootData
                     (obr <- the_observer i ;;
                      modify (fun st => set_observers
                        <[i := mkObserver (ob_value obr) (ob_dep obr) (S (ob_vmCount obr))]>
                        (st_obUid st) st))
               | None => ret tt
               end ;; ret (Some i))) as Hcount.
    { intros i. apply (respects_bind _); [|intros; apply (respects_ret _)].
      apply (respects_when _). apply (respects_bind _); [apply (respects_the_observer _)|].
      intros obr s. split; [intros; eauto|]. intros ob [x Hx]. simpl.
      destruct (decide (i = ob)) as [<-|Hne].
      - rewrite lookup_insert_eq. eauto.
      - rewrite lookup_insert_ne by done. eauto. }
    destruct (o_ob o) as [ob|] eqn:Hob.
    + unfold bind at 1, ret at 1. apply Hcount.
    + unfold bind at 1, gets at 1. unfold bind at 1. cbv beta iota.
      destruct (_ && _); [|reflexivity].
      unfold bind at 1.
      destruct (Observer_new_with_marks (fun v => observe depth v false) depth r st o
                  (fun v => IH v false) Ho Hob) as (Hk & _ & _ & _).
      destruct (Observer_new_with _ depth r st) as [[i|e] st1]; simpl in *; [|done].
      unfold ret at 1. etrans; [exact Hk|]. apply Hcount.
Qed.

Lemma markers_wf_intro st :
  map_Forall (fun _ o =>
      match o_ob o with
      | Some ob => bool_decide (is_Some (st_observers st !! ob))
      | None => true
      end = true)
    (st_objs st) ->
  markers_wf st.
Proof.
  intros H r o ob Ho Hob. specialize (H r o Ho). simpl in H. rewrite Hob in H.
  by apply bool_decide_eq_true in H.
Qed.

Lemma count_root_spec asRootData i st :
  is_Some (st_observers st !! i) ->
  exists st', count_root asRootData i st = (Ok tt, st') /\
    st_objs st' = st_objs st /\ st_obUid st' = st_obUid st /\
    dom (st_observers st') = dom (st_observers st).
Proof.
  intros [obr Hobr]. unfold count_root. destruct asRootData; simpl.
  - unfold bind, the_observer, modify. rewrite Hobr. eexists. split; [done|]. simpl.
    split; [done|]. split; [done|]. rewrite dom_insert_L.
    apply elem_of_dom_2 in Hobr. set_solver.
  - exists st. done.
Qed.

Lemma observe_marked depth r asRootData st o ob :
  st_objs st !! r = Some o -> o_isVNode o = false -> o_ob o = Some ob ->
  observe depth (VRef r) asRootData st =
    match count_root asRootData ob st with
    | (Ok _, st') => (Ok (Some ob), st')
    | (Throw e, st') => (Throw e, st')
    end.
Proof.
  intros Ho Hv Hob. destruct depth; simpl;
    unfold bind at 1, the_obj; rewrite Ho; cbv beta iota; rewrite Hv, Hob;
    unfold bind at 1, ret at 1; cbv beta iota; unfold bind at 1;
    fold (count_root asRootData ob);
    by destruct (count_root asRootData ob st) as [[[]|e] st'].
Qed.

(** C3. When [observe(X)] returns an [Observer], observing [X] again, with
    any arguments, returns that same [Observer] and creates none: the
    marker it left on [X] is found. *)
Theorem observe_is_idempotent depth value asRootData st ob st1 :
  markers_wf st ->
  observe depth value asRootData st = (Ok (Some ob), st1) ->
  forall depth2 asRootData2,
    exists st2,
      observe depth2 value asRootData2 st1 = (Ok (Some ob), st2) /\
      st_objs st2 = st_objs st1 /\
      st_obUid st2 = st_obUid st1 /\
      dom (st_observers st2) = dom (st_observers st1).
Proof.
  intros Hwf Hobs depth2 asRootData2.
  destruct value as [| | | | |r]; try (destruct depth; simpl in Hobs; by inversion Hobs).
  assert (exists o1, st_objs st1 !! r = Some o1 /\ o_isVNode o1 = false /\
                     o_ob o1 = Some ob /\ is_Some (st_observers st1 !! ob))
    as (o1 & Ho1 & Hv1 & Hob1 & Hex1).
  { destruct (st_objs st !! r) as [o|] eqn:Ho.
    2: { destruct depth; simpl in Hobs; unfold bind, the_obj in Hobs;
         rewrite Ho in Hobs; by inversion Hobs. }
    destruct (o_isVNode o) eqn:Hv.
    { destruct depth; simpl in Hobs; unfold bind, the_obj in Hobs;
        rewrite Ho in Hobs; simpl in Hobs; rewrite Hv in Hobs; by inversion Hobs. }
    destruct (o_ob o) as [ob0|] eqn:Hob.
    - (* the marker was there *)
      rewrite (observe_marked _ _ _ _ _ _ Ho Hv Hob) in Hobs.
      destruct (count_root_spec asRootData ob0 st (Hwf _ _ _ Ho Hob))
        as (st' & E & Hobjs & _ & Hdom).
      rewrite E in Hobs. inversion Hobs; subst ob0 st'.
      exists o. rewrite Hobjs. split; [done|]. split; [done|]. split; [done|].
      apply elem_of_dom. rewrite Hdom. apply elem_of_dom. by apply (Hwf _ _ _ Ho Hob).
    - (* a new Observer was created *)
      destruct depth as [|depth]; simpl in Hobs;
        unfold bind at 1, the_obj in Hobs; rewrite Ho in Hobs; cbv beta iota in Hobs;
        rewrite Hv, Hob in Hobs;
        unfold bind at 1 2, gets in Hobs; cbv beta iota in Hobs;
        destruct (_ && _) in Hobs; try (by inversion Hobs).
      unfold bind at 1 in Hobs.
      destruct (Observer_new_with_marks (fun v => observe depth v false) depth r st o
                  (fun v => observe_keeps_markers depth v false) Ho Hob)
        as (Hk & (o' & Ho' & Hob') & Hex & Hid).
      destruct (Observer_new_with _ depth r st) as [[i|e] st'] eqn:Enew;
        simpl in *; [|by inversion Hobs].
      specialize (Hid i eq_refl). subst i.
      unfold ret at 1 in Hobs. unfold bind at 1 in Hobs.
      fold (count_root asRootData (st_obUid st)) in Hobs.
      destruct (count_root_spec asRootData (st_obUid st) st' Hex)
        as (st'' & E & Hobjs & _ & Hdom).
      rewrite E in Hobs. inversion Hobs; subst ob st''.
      exists o'. rewrite Hobjs. split; [done|].
      split.
      { destruct Hk as [Hk _]. destruct (Hk r o Ho) as (o2 & Ho2 & Hv2 & _).
        assert (o2 = o') as -> by congruence. congruence. }
      split; [done|].
      apply elem_of_dom. rewrite Hdom. by apply elem_of_dom. }
  rewrite (observe_marked _ _ _ _ _ _ Ho1 Hv1 Hob1).
  destruct (count_root_spec asRootData2 ob st1 Hex1) as (st2 & E & Hobjs & Huid & Hdom).
  rewrite E. exists st2. done.
Qed.

Lemma observe_is_idempotent_witness :
  markers_wf Scenario.initial /\
  observe 5 (VRef 0) false Scenario.initial
    = (Ok (Some 0), (observe 5 (VRef 0) false Scenario.initial).2) /\
  forall depth2 asRootData2,
    exists st2,
      observe depth2 (VRef 0) asRootData2 (observe 5 (VRef 0) false Scenario.initial).2
        = (Ok (Some 0), st2) /\
      st_objs st2 = st_objs (observe 5 (VRef 0) false Scenario.initial).2 /\
      st_obUid st2 = st_obUid (observe 5 (VRef 0) false Scenario.initial).2 /\
      dom (st_observers st2)
        = dom (st_observers (observe 5 (VRef 0) false Scenario.initial).2).
Proof.
  assert (markers_wf Scenario.initial) as H1.
  { apply markers_wf_intro. refine (bool_decide_unpack _ _). vm_compute. exact I. }
  assert (observe 5 (VRef 0) false Scenario.initial
            = (Ok (Some 0), (observe 5 (VRef 0) false Scenario.initial).2)) as H2.
  { vm_compute. reflexivity. }
  split; [exact H1|]. split; [exact H2|].
  exact (observe_is_idempotent 5 (VRef 0) false Scenario.initial 0 _ H1 H2).
Defined.

(** * Adding and removing properties (C7, C8) *)













Section Notify.

Variable traverse_deps : State -> Val -> list DepId * option Exn.


End Notify.


(** ** [set] *)


Section SetBranches.

Variable traverse_deps : State -> Val -> list DepId * option Exn.
Variable Array_prototype_has : string -> bool.
Variable to_array_length : State -> Val -> option nat.










End SetBranches.

(** ** Exactly one notification *)








Section Once.

Variable traverse_deps : State -> Val -> list DepId * option Exn.
Variable to_array_length : State -> Val -> option nat.





End Once.

(** ** The array branch of [set] *)



Section SetArray.

Variable traverse_deps : State -> Val -> list DepId * option Exn.
Variable Array_prototype_has : string -> bool.
Variable to_array_length : State -> Val -> option nat.






End SetArray.

(** ** [set], branch by branch (C7) *)


Section SetTheorem.

Variable traverse_deps : State -> Val -> list DepId * option Exn.
Variable Array_prototype_has : string -> bool.
Variable to_array_length : State -> Val -> option nat.


End SetTheorem.


(** ** [del], branch by branch (C8) *)





Global Instance objs_fixed_preorder : PreOrder objs_fixed.
Proof.
  split.
  - intros st. done.
  - intros a b c (? & ? & ?) (? & ? & ?). repeat split; congruence.
Qed.



Section DelBranches.

Variable traverse_deps : State -> Val -> list DepId * option Exn.







End DelBranches.

Section DelTheorem.

Variable traverse_deps : State -> Val -> list DepId * option Exn.



End DelTheorem.


(** * Construction, registration, scheduling and round trips *)

(** ** The constructor establishes the subscription invariant *)

Lemma subs_of_set_watchers f st d : subs_of (set_watchers f st) d = subs_of st d.
Proof. reflexivity. Qed.

Lemma not_subscribed_intro st w :
  map_Forall (fun _ l => w ∉ l) (st_subs st) -> forall d, w ∉ subs_of st d.
Proof.
  intros H d. unfold subs_of. destruct (st_subs st !! d) as [l|] eqn:E; simpl.
  - by apply (H d).
  - apply not_elem_of_nil.
Qed.

Section Construction.

Variable traverse_deps : State -> Val -> list DepId * option Exn.
Variable parsePath : string -> option Expr.

(** Up to the first evaluation the constructor registers the watcher with
    its component and stores its record; the subscriber lists are as
    before. *)
Lemma Watcher_new_registers depth vm expOrFn cb options isRenderWatcher st :
  is_Some (st_vms st !! vm) ->
  let this := S (st_watcherUid st) in
  let wr := new_watcher parsePath vm expOrFn cb options in
  exists st1,
    Watcher_new traverse_deps parsePath depth vm expOrFn cb options isRenderWatcher st =
      (value <- (if w_lazy wr then ret VUndef else get traverse_deps depth this) ;;
       wr' <- the_watcher this ;;
       put_watcher this (upd_value value wr') ;;
       ret this) st1 /\
    st_watchers st1 !! this = Some wr /\
    st_subs st1 = st_subs st.
Proof.
  intros [v Hvm] this wr.
  unfold Watcher_new, bind at 1, gets. cbv beta iota. fold this.
  unfold bind at 1, the_vm at 1. rewrite Hvm. cbv beta iota zeta.
  unfold bind at 1, modify at 1. cbv beta iota.
  subst wr. unfold new_watcher.
  assert (forall (m : M Expr) s g s1 (k : Expr -> M WatcherId),
            m s = (Ok g, s1) -> (x <- m ;; k x) s = k g s1) as Hstep.
  { intros m s g s1 k Hm. unfold bind. by rewrite Hm. }
  destruct options as [o|]; cbv beta iota;
    (unfold bind at 1, modify at 1; cbv beta iota);
    match goal with
    | |- exists st1, (x <- ?m ;; @?k x) ?s = _ /\ _ =>
        assert (exists s1,
                  m s = (Ok (match expOrFn with
                             | OfFunction f => f
                             | OfPath path => default (EVal VUndef) (parsePath path)
                             end), s1) /\
                  st_subs s1 = st_subs st) as (s1 & Hm & Hs1)
    end.
  1,3: destruct expOrFn as [f|path];
         [by eexists|destruct (parsePath path) as [f|]; [by eexists|]];
         unfold bind, dev_warn, bind, gets, when, log, modify, ret; simpl;
         destruct (st_production st); simpl; by eexists.
  all: rewrite (Hstep _ _ _ _ _ Hm);
    unfold bind at 1, put_watcher at 1, modify at 1; cbv beta iota;
    (eexists; split; [reflexivity|]; simpl; rewrite lookup_insert_eq; done).
Qed.

(** A watcher comes out of its constructor satisfying the subscription
    invariant: whether it was evaluated at once or created [lazy], its
    "new" buffers are empty and it is subscribed to exactly the deps of its
    current list; no Dep lists a subscriber twice and the subscriptions of
    the other watchers are as before.  The next watcher id is taken to be
    subscribed nowhere yet. *)
Lemma Watcher_new_establishes_the_invariant
    depth vm expOrFn cb options isRenderWatcher st w st' :
  DepInv st ->
  (forall d, S (st_watcherUid st) ∉ subs_of st d) ->
  Watcher_new traverse_deps parsePath depth vm expOrFn cb options isRenderWatcher st
    = (Ok w, st') ->
  w = S (st_watcherUid st) /\
  DepInv st' /\ WatcherInv st' w /\
  (forall d w', w' <> w -> w' ∈ subs_of st' d <-> w' ∈ subs_of st d).
Proof.
  intros Hinv Hfresh Enew.
  assert (is_Some (st_vms st !! vm)) as Hvm.
  { destruct (st_vms st !! vm) eqn:E; [eauto|].
    unfold Watcher_new, bind at 1, gets in Enew. cbv beta iota in Enew.
    unfold bind at 1, the_vm at 1 in Enew. rewrite E in Enew. discriminate. }
  destruct (Watcher_new_registers depth vm expOrFn cb options isRenderWatcher st Hvm)
    as (st1 & E & Hw & Hsubs).
  cbv zeta in E, Hw. rewrite E in Enew. clear E.
  set (this := S (st_watcherUid st)) in *.
  set (wr := new_watcher parsePath vm expOrFn cb options) in *.
  assert (forall d, subs_of st1 d = subs_of st d) as Hsame.
  { intros d. unfold subs_of. by rewrite Hsubs. }
  assert (DepInv st1) as Hinv1.
  { intros d. rewrite Hsame. apply Hinv. }
  unfold bind at 1 in Enew.
  destruct (w_lazy wr) eqn:Hlazy.
  - unfold ret at 1 in Enew. cbv beta iota in Enew.
    unfold bind, the_watcher, put_watcher, modify, ret in Enew. rewrite Hw in Enew.
    simpl in Enew. inversion Enew; subst w st'; clear Enew.
    split; [done|]. split; [|split].
    + intros d. apply (Hinv1 d).
    + exists (upd_value VUndef wr). split; [simpl; by rewrite lookup_insert_eq|].
      split; [done|]. split; [done|]. split; [done|].
      intros d. rewrite subs_of_set_watchers. rewrite Hsame.
      split; [intros H; by apply Hfresh in H|intros H; by apply elem_of_nil in H].
    + intros d w' _. rewrite subs_of_set_watchers. by rewrite Hsame.
  - destruct (get_spec traverse_deps depth this st1 wr Hw eq_refl eq_refl Hinv1)
      as (rb & st2 & rt & st3 & _ & _ & _ & Hrt).
    destruct rt as [[]|e]; [|rewrite Hrt in Enew; discriminate].
    destruct Hrt as (st4 & N & new & Eget & HW & _ & _ & Hnd & _ & _ & _ & _ & Hinv4 & HS).
    rewrite Eget in Enew. destruct rb as [value|e]; [|discriminate].
    unfold bind, the_watcher, put_watcher, modify, ret in Enew. rewrite HW in Enew.
    rewrite lookup_insert_eq in Enew. simpl in Enew.
    inversion Enew; subst w st'; clear Enew.
    split; [done|]. split; [|split].
    + intros d. apply (Hinv4 d).
    + eexists. split; [simpl; by rewrite lookup_insert_eq|].
      split; [done|]. split; [done|]. split; [done|].
      intros d. rewrite subs_of_set_watchers. rewrite HS, Hsame.
      simpl. pose proof (Hfresh d). set_solver.
    + intros d w' Hne. rewrite subs_of_set_watchers. rewrite HS, Hsame.
      naive_solver.
Qed.

End Construction.

(** The watcher of the running example, out of its constructor. *)
Lemma Watcher_new_establishes_the_invariant_witness :
  DepInv Computed.observed /\
  (forall d, S (st_watcherUid Computed.observed) ∉ subs_of Computed.observed d) /\
  Watcher_new Scenario.no_traverse Scenario.no_paths 5 0
    (OfFunction Scenario.evaluator) Scenario.quiet_cb None false Computed.observed
    = (Ok 1, Scenario.watched) /\
  1 = S (st_watcherUid Computed.observed) /\
  DepInv Scenario.watched /\ WatcherInv Scenario.watched 1 /\
  (forall d w', w' <> 1 ->
     w' ∈ subs_of Scenario.watched d <-> w' ∈ subs_of Computed.observed d).
Proof.
  assert (DepInv Computed.observed) as H1.
  { apply DepInv_intro. refine (bool_decide_unpack _ _). vm_compute. exact I. }
  assert (forall d, S (st_watcherUid Computed.observed) ∉ subs_of Computed.observed d)
    as H2.
  { apply not_subscribed_intro. refine (bool_decide_unpack _ _). vm_compute. exact I. }
  assert (Watcher_new Scenario.no_traverse Scenario.no_paths 5 0
            (OfFunction Scenario.evaluator) Scenario.quiet_cb None false Computed.observed
          = (Ok 1, Scenario.watched)) as H3.
  { vm_compute. reflexivity. }
  split; [exact H1|]. split; [exact H2|]. split; [exact H3|].
  exact (Watcher_new_establishes_the_invariant Scenario.no_traverse Scenario.no_paths
           5 0 (OfFunction Scenario.evaluator) Scenario.quiet_cb None false
           Computed.observed 1 Scenario.watched H1 H2 H3).
Defined.

(** ** Registering a dep twice, and [depend()] *)

Lemma addDep_known w d st wr :
  st_watchers st !! w = Some wr -> d ∈ w_newDepIds wr -> addDep w d st = (Ok tt, st).
Proof.
  intros Hw Hin. unfold addDep, bind, the_watcher. rewrite Hw. by rewrite decide_True.
Qed.

Lemma addDep_records w d st :
  (exists e, addDep w d st = (Throw e, st) /\ st_watchers st !! w = None) \/
  (exists st1 wr1, addDep w d st = (Ok tt, st1) /\
     st_watchers st1 !! w = Some wr1 /\ d ∈ w_newDepIds wr1).
Proof.
  unfold addDep, bind, the_watcher.
  destruct (st_watchers st !! w) as [wr|] eqn:Hw; [right|left; eauto].
  destruct (decide (d ∈ w_newDepIds wr)) as [Hin|Hnin]; [by eexists _, _|].
  unfold put_watcher, modify, ret. cbv beta iota.
  destruct (decide (d ∈ w_depIds wr)); [|unfold Dep_addSub; destruct (decide _)];
    (eexists _, _; split; [reflexivity|]; simpl; rewrite lookup_insert_eq;
     split; [reflexivity|]; simpl; set_solver).
Qed.

(** [addDep] of a dep that the evaluation has registered already changes
    nothing: registering twice in a row is registering once. *)
Lemma addDep_twice_is_once w d st :
  (addDep w d ;; addDep w d) st = addDep w d st.
Proof.
  unfold bind.
  destruct (addDep_records w d st) as [(e & -> & _)|(st1 & wr1 & -> & Hw1 & Hin)]; [done|].
  by apply (addDep_known w d st1 wr1).
Qed.

Lemma Dep_depend_registers t d st tr :
  st_target st = Some t -> st_watchers st !! t = Some tr ->
  exists st1 tr1,
    Dep_depend d st = (Ok tt, st1) /\
    st_trace st1 = st_trace st ++ [EvDepend d (Some t)] /\
    st_target st1 = Some t /\
    (forall w, w <> t -> st_watchers st1 !! w = st_watchers st !! w) /\
    st_watchers st1 !! t = Some tr1 /\
    w_newDepIds tr1 = w_newDepIds tr ∪ {[d]} /\
    w_deps tr1 = w_deps tr /\ w_depIds tr1 = w_depIds tr /\
    (forall d' w, w ∈ subs_of st d' -> w ∈ subs_of st1 d') /\
    (d ∉ w_newDepIds tr -> d ∉ w_depIds tr -> t ∈ subs_of st1 d).
Proof.
  intros Ht Hw. unfold Dep_depend, bind, gets, log, modify. rewrite Ht. cbv beta iota.
  set (st0 := set_trace _ st).
  assert (st_watchers st0 !! t = Some tr) as Hw0 by done.
  unfold addDep, bind, the_watcher. rewrite Hw0. cbv beta iota zeta.
  destruct (decide (d ∈ w_newDepIds tr)) as [Hin|Hnin].
  { exists st0, tr. repeat split; try done. set_solver. }
  unfold put_watcher, modify. cbv beta iota.
  set (tr1 := upd_deps _ _ _ _ tr). set (st1 := set_watchers _ st0).
  assert (forall w, w <> t -> st_watchers st1 !! w = st_watchers st !! w) as Hothers.
  { intros w Hne. unfold st1. simpl. by rewrite lookup_insert_ne. }
  assert (st_watchers st1 !! t = Some tr1) as Hw1.
  { unfold st1. simpl. by rewrite lookup_insert_eq. }
  destruct (decide (d ∈ w_depIds tr)) as [Hold|Hnew].
  { exists st1, tr1. repeat split; try done. simpl. set_solver. }
  unfold Dep_addSub. destruct (decide (t ∈ subs_of st1 d)) as [Hsub|Hnsub].
  { exists st1, tr1. repeat split; try done. simpl. set_solver. }
  eexists _, tr1. split; [reflexivity|]. simpl.
  repeat split; try done.
  - set_solver.
  - intros d' w Hin. unfold subs_of in *. simpl.
    destruct (decide (d' = d)) as [->|Hne].
    + rewrite lookup_insert_eq. simpl. apply elem_of_app. by left.
    + by rewrite lookup_insert_ne.
  - intros _ _. unfold subs_of at 1. simpl. rewrite lookup_insert_eq. simpl.
    apply elem_of_app. right. by apply list_elem_of_singleton.
Qed.

Lemma for_each_depend_registers t l : forall st tr,
  st_target st = Some t -> st_watchers st !! t = Some tr ->
  exists st' tr',
    for_each Dep_depend l st = (Ok tt, st') /\
    st_trace st' = st_trace st ++ ((fun d => EvDepend d (Some t)) <$> l) /\
    st_target st' = Some t /\
    (forall w, w <> t -> st_watchers st' !! w = st_watchers st !! w) /\
    st_watchers st' !! t = Some tr' /\
    w_newDepIds tr' = w_newDepIds tr ∪ list_to_set l /\
    w_deps tr' = w_deps tr /\ w_depIds tr' = w_depIds tr /\
    (forall d' w, w ∈ subs_of st d' -> w ∈ subs_of st' d') /\
    (forall d, d ∈ l -> d ∉ w_newDepIds tr -> d ∉ w_depIds tr -> t ∈ subs_of st' d).
Proof.
  induction l as [|d l IH]; intros st tr Ht Hw.
  - exists st, tr. simpl. rewrite app_nil_r. repeat split; try done; set_solver.
  - destruct (Dep_depend_registers t d st tr Ht Hw)
      as (st1 & tr1 & E1 & T1 & Ht1 & Ho1 & Hw1 & Hn1 & Hd1 & Hi1 & Hm1 & Hs1).
    destruct (IH st1 tr1 Ht1 Hw1)
      as (st' & tr' & E' & T' & Ht' & Ho' & Hw' & Hn' & Hd' & Hi' & Hm' & Hs').
    exists st', tr'. split.
    { simpl. unfold bind. by rewrite E1. }
    split; [rewrite T', T1; simpl; by rewrite <- app_assoc|].
    split; [done|]. split; [intros w Hne; by rewrite Ho', Ho1|]. split; [done|].
    split; [rewrite Hn', Hn1; set_solver|]. split; [congruence|]. split; [congruence|].
    split; [intros d' w Hin; by apply Hm', Hm1|].
    intros d0 Hin Hnn Hni.
    destruct (decide (d0 = d)) as [->|Hne].
    + apply Hm'. by apply Hs1.
    + apply Hs'; [set_solver|rewrite Hn1; set_solver|by rewrite Hi1].
Qed.

(** [Watcher.depend] under an active target: every dep of the watcher's
    current list has its [depend()] called, last to first, so that the
    target records them all in its "new" set and is subscribed to those
    that neither of its sets held; the current list and set of the target
    are left to the reconciliation. *)
Lemma depend_hands_every_dep_to_the_target w t st wr tr :
  st_target st = Some t ->
  st_watchers st !! w = Some wr -> st_watchers st !! t = Some tr ->
  exists st' tr',
    Watcher_depend w st = (Ok tt, st') /\
    st_trace st' = st_trace st ++ ((fun d => EvDepend d (Some t)) <$> reverse (w_deps wr)) /\
    st_watchers st' !! t = Some tr' /\
    w_newDepIds tr' = w_newDepIds tr ∪ list_to_set (w_deps wr) /\
    w_deps tr' = w_deps tr /\ w_depIds tr' = w_depIds tr /\
    (forall d, d ∈ w_deps wr -> d ∉ w_newDepIds tr -> d ∉ w_depIds tr ->
       t ∈ subs_of st' d).
Proof.
  intros Ht Hw Htr. unfold Watcher_depend, bind at 1, the_watcher. rewrite Hw. cbv beta iota.
  destruct (for_each_depend_registers t (reverse (w_deps wr)) st tr Ht Htr)
    as (st' & tr' & E' & T' & Ht' & Ho' & Hw' & Hn' & Hd' & Hi' & Hm' & Hs').
  exists st', tr'. split; [done|]. split; [done|]. split; [done|].
  split; [rewrite Hn'; set_solver|]. split; [done|]. split; [done|].
  intros d Hin. apply Hs'. by apply elem_of_reverse.
Qed.

(** The computed watcher of the example hands the dep of [a] to the first
    watcher. *)
Lemma depend_hands_every_dep_to_the_target_witness :
  st_target Computed.state = Some 1 /\
  st_watchers Computed.state !! 2 = Some Computed.computed_watcher /\
  st_watchers Computed.state !! 1 = Some Computed.target_watcher /\
  exists st' tr',
    Watcher_depend 2 Computed.state = (Ok tt, st') /\
    st_trace st' = st_trace Computed.state ++
      ((fun d => EvDepend d (Some 1)) <$> reverse (w_deps Computed.computed_watcher)) /\
    st_watchers st' !! 1 = Some tr' /\
    w_newDepIds tr' = w_newDepIds Computed.target_watcher
                        ∪ list_to_set (w_deps Computed.computed_watcher) /\
    w_deps tr' = w_deps Computed.target_watcher /\
    w_depIds tr' = w_depIds Computed.target_watcher /\
    (forall d, d ∈ w_deps Computed.computed_watcher ->
       d ∉ w_newDepIds Computed.target_watcher -> d ∉ w_depIds Computed.target_watcher ->
       1 ∈ subs_of st' d).
Proof.
  split; [reflexivity|]. split; [reflexivity|]. split; [reflexivity|].
  exact (depend_hands_every_dep_to_the_target 2 1 Computed.state
           Computed.computed_watcher Computed.target_watcher
           eq_refl eq_refl eq_refl).
Defined.

(** With no active target [Watcher.depend] registers nothing: the
    [depend()] calls are all that happens. *)
Lemma depend_without_target_registers_nothing w st wr :
  st_target st = None -> st_watchers st !! w = Some wr ->
  Watcher_depend w st =
    (Ok tt,
     set_trace (fun t => t ++ ((fun d => EvDepend d None) <$> reverse (w_deps wr))) st).
Proof.
  intros Ht Hw. unfold Watcher_depend, bind at 1, the_watcher. rewrite Hw. cbv beta iota.
  generalize (reverse (w_deps wr)). intros l. clear Hw. revert st Ht.
  induction l as [|d l IH]; intros st Ht.
  - simpl. unfold ret. f_equal. destruct st. unfold set_trace. simpl. by rewrite app_nil_r.
  - simpl. unfold bind at 1, Dep_depend at 1, bind, gets, log, modify, ret. rewrite Ht.
    cbv beta iota. rewrite IH by done. f_equal. unfold set_trace. simpl.
    by rewrite <- app_assoc.
Qed.

Lemma depend_without_target_registers_nothing_witness :
  st_target Scenario.watched = None /\
  st_watchers Scenario.watched !! 1 = Some Scenario.watched_watcher /\
  Watcher_depend 1 Scenario.watched =
    (Ok tt,
     set_trace (fun t => t ++ ((fun d => EvDepend d None)
                                 <$> reverse (w_deps Scenario.watched_watcher)))
       Scenario.watched).
Proof.
  split; [reflexivity|]. split; [reflexivity|].
  exact (depend_without_target_registers_nothing 1 Scenario.watched
           Scenario.watched_watcher eq_refl eq_refl).
Defined.




(** ** [update()] under [notify()] *)

Section Update.

Variable traverse_deps : State -> Val -> list DepId * option Exn.

Lemma update_deferred depth w st :
  deferred st w ->
  update traverse_deps depth w st =
    (Ok tt, set_trace (fun t => t ++ [EvUpdate w; EvQueue w]) st).
Proof.
  intros (wr & Hw & Hl & Hs).
  unfold update, bind, log, modify, the_watcher, queueWatcher, log, modify. simpl.
  rewrite Hw, Hl, Hs. f_equal. unfold set_trace. simpl. by rewrite <- app_assoc.
Qed.

Lemma for_each_update_deferred depth l : forall st,
  Forall (deferred st) l ->
  for_each (update traverse_deps depth) l st =
    (Ok tt, set_trace (fun t => t ++ concat ((fun w => [EvUpdate w; EvQueue w]) <$> l)) st).
Proof.
  induction l as [|w l IH]; intros st Hl.
  - simpl. unfold ret. f_equal. destruct st. unfold set_trace. simpl. by rewrite app_nil_r.
  - apply Forall_cons in Hl as [Hw Hl]. simpl for_each. unfold bind.
    rewrite (update_deferred depth w st Hw). rewrite IH.
    + f_equal. unfold set_trace. simpl. by rewrite <- app_assoc.
    + eapply Forall_impl; [exact Hl|]. intros w' (wr & ? & ? & ?). by exists wr.
Qed.

(** [Dep.notify] over [Watcher.update]: subscribers that are neither lazy
    nor sync are handed to the scheduler, each once, in ascending order of
    id in a non-production build and in subscription order otherwise;
    nothing is evaluated and nothing but the trace changes. *)
Lemma notify_queues_the_deferred_subscribers depth d st :
  Forall (deferred st) (subs_of st d) ->
  let order := if st_production st then subs_of st d else merge_sort le (subs_of st d) in
  Dep_notify traverse_deps depth d st =
    (Ok tt,
     set_trace (fun t => t ++ EvNotify d ::
                  concat ((fun w => [EvUpdate w; EvQueue w]) <$> order)) st) /\
  order ≡ₚ subs_of st d /\
  (st_production st = false -> Sorted le order).
Proof.
  intros Hl order. split.
  - unfold Dep_notify, bind, log, modify, gets. simpl.
    change (subs_of (set_trace _ st) d) with (subs_of st d).
    fold order. rewrite for_each_update_deferred.
    + f_equal. unfold set_trace. simpl. by rewrite <- app_assoc.
    + assert (Forall (deferred st) order) as Ho.
      { unfold order. destruct (st_production st); [done|].
        by rewrite merge_sort_Permutation. }
      eapply Forall_impl; [exact Ho|]. intros w' (wr & ? & ? & ?). by exists wr.
  - unfold order. destruct (st_production st); [done|]. split.
    + apply merge_sort_Permutation.
    + intros _. apply (Sorted_merge_sort le).
Qed.

End Update.

(** A notification of the dep of [flag] queues the watcher of the running
    example. *)
Lemma notify_queues_the_deferred_subscribers_witness :
  Forall (deferred Scenario.watched) (subs_of Scenario.watched 2) /\
  Dep_notify Scenario.no_traverse 5 2 Scenario.watched =
    (Ok tt,
     set_trace (fun t => t ++ [EvNotify 2; EvUpdate 1; EvQueue 1]) Scenario.watched).
Proof.
  assert (Forall (deferred Scenario.watched) (subs_of Scenario.watched 2)) as H.
  { repeat constructor. exists Scenario.watched_watcher. done. }
  split; [exact H|].
  exact (proj1 (notify_queues_the_deferred_subscribers Scenario.no_traverse 5 2
                  Scenario.watched H)).
Defined.

(** ** Round trips: [set] then [del], write then read *)



Section RoundTrip.

Variable traverse_deps : State -> Val -> list DepId * option Exn.
Variable Array_prototype_has : string -> bool.
Variable to_array_length : State -> Val -> option nat.




End RoundTrip.



(** ** What [observe] declines *)

(** [observe] creates no [Observer] and changes nothing for a primitive,
    for a VNode, and for an object without marker that is not extensible,
    is a component instance or of another class than plain object and
    list, or is met while observation is switched off or on the server. *)
Lemma observe_declines depth value asRootData st :
  not_observable st value -> observe depth value asRootData st = (Ok None, st).
Proof.
  intros H. destruct value as [| | | | |r]; try (by destruct depth).
  destruct H as (o & Ho & H).
  destruct depth; simpl; unfold bind at 1, the_obj at 1; rewrite Ho; cbv beta iota;
    (destruct (o_isVNode o) eqn:Hv; [done|]);
    (destruct H as [H|[-> H]]; [done|]);
    unfold bind at 1, bind at 1, gets at 1; cbv beta iota;
    change (id st) with st;
    destruct (st_shouldObserve st), (st_ssr st), (o_class o), (o_extensible o),
      (o_isVue o); try done; exfalso; naive_solver.
Qed.

(** A number is not observed. *)
Lemma observe_declines_witness :
  not_observable Scenario.initial (VNum (Fin 1)) /\
  observe 5 (VNum (Fin 1)) true Scenario.initial = (Ok None, Scenario.initial).
Proof.
  split; [exact I|].
  exact (observe_declines 5 (VNum (Fin 1)) true Scenario.initial I).
Defined.
